(** * Preferences DataStore codec ([.preferences_pb])

    A shallow embedding of the protobuf wire-format codec of the editor:
    [read_varint], [encode_varint], [read_fixed32], [read_fixed64],
    [encode_fixed32], [encode_fixed64], [parse_value_message],
    [encode_value_message], [parse_preferences_pb] and
    [encode_preferences_dict].

    Python integers are unbounded: they are [Z].  A [bytes] object is a
    list of [byte]; [len] and offsets are [Z].  Every [raise ValueError(..)]
    of the source is one constructor of [exn]. *)

From Stdlib Require Import ZArith List Lia Bool.
From Stdlib Require String Ascii.
From coqutil Require Import Byte Word.LittleEndianList.
Import ListNotations.
Local Open Scope Z_scope.

(** ** Outcomes of a call *)

(** The exceptions the codec raises, named after their messages. *)
Inductive exn : Type :=
| EndOfVarint          (* "Unexpected end of data while reading varint" *)
| VarintTooBig         (* "Varint too big" *)
| NotEnoughFixed32     (* "Not enough data for fixed32" *)
| NotEnoughFixed64     (* "Not enough data for fixed64" *)
| TruncatedString      (* "Truncated string" *)
| TruncatedStringSet   (* "Truncated string_set" *)
| UnknownWireValue     (* "Unknown wire type encountered" *)
| UnknownWireEntry     (* "Unknown wire inside map entry" *)
| UnknownWireTop       (* "Unknown top-level wire" *)
| UnknownTypeForEncoding (* "Unknown type for encoding: ..." *)
| UnicodeEncodeError.  (* str.encode('utf-8') on a lone surrogate *)

(** The error taxonomy of the specification. *)
Inductive ErrorKind : Type :=
| TruncatedData
| VarintOverflow
| UnsupportedWireType
| UnknownValueKind
| NotInTaxonomy.

Definition kind_of (e : exn) : ErrorKind :=
  match e with
  | EndOfVarint | NotEnoughFixed32 | NotEnoughFixed64
  | TruncatedString | TruncatedStringSet => TruncatedData
  | VarintTooBig => VarintOverflow
  | UnknownWireValue | UnknownWireEntry | UnknownWireTop => UnsupportedWireType
  | UnknownTypeForEncoding => UnknownValueKind
  | UnicodeEncodeError => NotInTaxonomy
  end.

(** A call returns, raises, or (in the model only) exhausts the fuel of a
    [while] loop; [while_lt_returns] shows the latter never happens for the
    loops of the codec. *)
Inductive outcome (A : Type) : Type :=
| Ok (a : A)
| Raise (e : exn)
| OutOfFuel.
Arguments Ok {A} a.
Arguments Raise {A} e.
Arguments OutOfFuel {A}.

Definition bind {A B} (m : outcome A) (k : A -> outcome B) : outcome B :=
  match m with
  | Ok a => k a
  | Raise e => Raise e
  | OutOfFuel => OutOfFuel
  end.

Notation "x <- m ;; k" := (bind m (fun x => k))
  (at level 61, m at next level, right associativity).
Notation "' p <- m ;; k" := (bind m (fun x => match x with p => k end))
  (at level 61, p pattern, m at next level, right associativity).

Definition fails_with {A} (m : outcome A) (k : ErrorKind) : Prop :=
  exists e, m = Raise e /\ kind_of e = k.

(** ** Bytes *)

Definition bytes := list byte.

Definition len {A} (l : list A) : Z := Z.of_nat (length l).

(** [data[lo:hi]] for non-negative [lo] and [hi]: the bounds are clamped to
    the length, as Python slicing does.  The codec never slices with a
    negative bound. *)
Definition slice (data : bytes) (lo hi : Z) : bytes :=
  let lo' := Z.min (Z.max lo 0) (len data) in
  let hi' := Z.min (Z.max hi 0) (len data) in
  firstn (Z.to_nat (hi' - lo')) (skipn (Z.to_nat lo') data).

(** ** Varints *)

(** The body of [while True] in [read_varint]; [rest] is [data[pos:]], so
    [pos >= len(data)] is [rest = []]. *)
Fixpoint read_varint_from (rest : bytes) (result shift pos : Z) : outcome (Z * Z) :=
  match rest with
  | [] => Raise EndOfVarint
  | b :: rest' =>
      let pos := pos + 1 in
      let result := Z.lor result (Z.shiftl (Z.land (byte.unsigned b) 0x7F) shift) in
      if Z.land (byte.unsigned b) 0x80 =? 0 then Ok (result, pos)
      else
        let shift := shift + 7 in
        if shift >? 70 then Raise VarintTooBig
        else read_varint_from rest' result shift pos
  end.

(** The callers pass offsets that are never negative. *)
Definition read_varint (data : bytes) (offset : Z) : outcome (Z * Z) :=
  if offset >=? len data then Raise EndOfVarint
  else read_varint_from (skipn (Z.to_nat offset) data) 0 0 offset.

(** The loop of [encode_varint].  Each round shifts [value] right by seven
    bits, so [Z.log2 value] rounds are more than enough
    ([encode_varint_loop_fuel]). *)
Fixpoint encode_varint_loop (fuel : nat) (value : Z) : bytes :=
  let to_write := Z.land value 0x7F in
  let value := Z.shiftr value 7 in
  if value =? 0 then [byte.of_Z to_write]
  else
    match fuel with
    | O => []
    | S fuel' => byte.of_Z (Z.lor to_write 0x80) :: encode_varint_loop fuel' value
    end.

Definition encode_varint (value : Z) : bytes :=
  let value := if value <? 0 then Z.land value (Z.shiftl 1 64 - 1) else value in
  encode_varint_loop (Z.to_nat (Z.log2 value)) value.

(** ** Fixed-width integers *)

(** [struct.unpack_from('<I', data, offset)] reads four bytes, least
    significant first; the caller has checked that they are there. *)
Definition read_fixed32 (data : bytes) (offset : Z) : outcome (Z * Z) :=
  if offset + 4 >? len data then Raise NotEnoughFixed32
  else Ok (le_combine (slice data offset (offset + 4)), offset + 4).

Definition read_fixed64 (data : bytes) (offset : Z) : outcome (Z * Z) :=
  if offset + 8 >? len data then Raise NotEnoughFixed64
  else Ok (le_combine (slice data offset (offset + 8)), offset + 8).

Definition encode_fixed32 (value : Z) : bytes :=
  le_split 4 (Z.land value 0xffffffff).

Definition encode_fixed64 (value : Z) : bytes :=
  le_split 8 (Z.land value 0xffffffffffffffff).

(** ** Strings

    A Python [str] is a sequence of code points.  [utf8_encode] is
    [s.encode('utf-8')] and [utf8_decode] is
    [b.decode('utf-8', errors='replace')]: these are the interpreter's
    codecs, modelled here on code points with division and remainder. *)

Definition str := list Z.

Fixpoint str_eqb (s t : str) : bool :=
  match s, t with
  | [], [] => true
  | c :: s', d :: t' => (c =? d) && str_eqb s' t'
  | _, _ => false
  end.

Definition utf8_encode_cp (c : Z) : outcome bytes :=
  if c <? 0x80 then Ok [byte.of_Z c]
  else if c <? 0x800 then
    Ok [byte.of_Z (0xC0 + c / 64); byte.of_Z (0x80 + c mod 64)]
  else if (0xD800 <=? c) && (c <=? 0xDFFF) then Raise UnicodeEncodeError
  else if c <? 0x10000 then
    Ok [byte.of_Z (0xE0 + c / 4096); byte.of_Z (0x80 + (c / 64) mod 64);
        byte.of_Z (0x80 + c mod 64)]
  else
    Ok [byte.of_Z (0xF0 + c / 262144); byte.of_Z (0x80 + (c / 4096) mod 64);
        byte.of_Z (0x80 + (c / 64) mod 64); byte.of_Z (0x80 + c mod 64)].

Fixpoint utf8_encode (s : str) : outcome bytes :=
  match s with
  | [] => Ok []
  | c :: s' =>
      b <- utf8_encode_cp c ;;
      bs <- utf8_encode s' ;;
      Ok (b ++ bs)
  end.

(** The decoder's state between two bytes: idle, or inside a sequence with
    [needed] continuation bytes to come, the code point read so far and the
    range allowed for the next byte. *)
Inductive utf8_state : Type :=
| Idle
| Pending (needed : nat) (cp lower upper : Z).

Definition utf8_lead (b : Z) : str * utf8_state :=
  if b <=? 0x7F then ([b], Idle)
  else if (0xC2 <=? b) && (b <=? 0xDF) then ([], Pending 1 (b - 0xC0) 0x80 0xBF)
  else if (0xE0 <=? b) && (b <=? 0xEF) then
    ([], Pending 2 (b - 0xE0) (if b =? 0xE0 then 0xA0 else 0x80)
                              (if b =? 0xED then 0x9F else 0xBF))
  else if (0xF0 <=? b) && (b <=? 0xF4) then
    ([], Pending 3 (b - 0xF0) (if b =? 0xF0 then 0x90 else 0x80)
                              (if b =? 0xF4 then 0x8F else 0xBF))
  else ([0xFFFD], Idle).

Definition utf8_step (st : utf8_state) (b : Z) : str * utf8_state :=
  match st with
  | Idle => utf8_lead b
  | Pending needed cp lower upper =>
      if (lower <=? b) && (b <=? upper) then
        let cp := cp * 64 + (b - 0x80) in
        match needed with
        | S (S n) => ([], Pending (S n) cp 0x80 0xBF)
        | _ => ([cp], Idle)
        end
      else
        let '(out, st') := utf8_lead b in (0xFFFD :: out, st')
  end.

Fixpoint utf8_decode_from (st : utf8_state) (data : bytes) : str :=
  match data with
  | [] => match st with Idle => [] | Pending _ _ _ _ => [0xFFFD] end
  | b :: rest =>
      let '(out, st') := utf8_step st (byte.unsigned b) in
      out ++ utf8_decode_from st' rest
  end.

Definition utf8_decode (data : bytes) : str := utf8_decode_from Idle data.

(** ** The data model *)

(** The type names of the source: ['boolean'], ['float'], ... *)
Inductive type_name : Type :=
| boolean | float | integer | long | string | string_set | double.

Definition type_name_eqb (t u : type_name) : bool :=
  match t, u with
  | boolean, boolean | float, float | integer, integer | long, long
  | string, string | string_set, string_set | double, double => true
  | _, _ => false
  end.

(** A preference value is the pair [(type_name, value)] of the source;
    [(None, None)] is [Absent].  A [float] or [double] is kept as its
    IEEE 754 bit pattern, which is what [struct.pack]/[struct.unpack]
    convert it from and to. *)
Inductive PreferenceValue : Type :=
| Boolean (b : bool)
| Float (bits : Z)
| Integer (v : Z)
| Long (v : Z)
| String (s : str)
| StringSet (arr : list str)
| Double (bits : Z)
| Absent.

Definition type_of (v : PreferenceValue) : option type_name :=
  match v with
  | Boolean _ => Some boolean
  | Float _ => Some float
  | Integer _ => Some integer
  | Long _ => Some long
  | String _ => Some string
  | StringSet _ => Some string_set
  | Double _ => Some double
  | Absent => None
  end.

Definition has_type (t : type_name) (v : PreferenceValue) : bool :=
  match type_of v with
  | Some u => type_name_eqb t u
  | None => false
  end.

(** A Python [dict] with [str] keys, in insertion order: [d[k] = v]
    replaces the value of an existing key in place and appends a new one. *)
Definition dict (V : Type) := list (str * V).

Fixpoint dict_set {V} (k : str) (v : V) (d : dict V) : dict V :=
  match d with
  | [] => [(k, v)]
  | (k', v') :: d' =>
      if str_eqb k' k then (k', v) :: d' else (k', v') :: dict_set k v d'
  end.

Fixpoint dict_get {V} (k : str) (d : dict V) : option V :=
  match d with
  | [] => None
  | (k', v') :: d' => if str_eqb k' k then Some v' else dict_get k d'
  end.

Definition PreferenceMap := dict PreferenceValue.

(** ** Loops over a buffer *)

(** One round of [while offset < len(data)]: go on at a new offset, or
    [break]. *)
Inductive step (S : Type) : Type :=
| Next (offset : Z) (st : S)
| Break (st : S).
Arguments Next {S} offset st.
Arguments Break {S} st.

Fixpoint while_lt {S} (fuel : nat) (n : Z) (body : Z -> S -> outcome (step S))
    (offset : Z) (st : S) : outcome S :=
  if offset <? n then
    match fuel with
    | O => OutOfFuel
    | Datatypes.S fuel' =>
        match body offset st with
        | Ok (Next offset' st') => while_lt fuel' n body offset' st'
        | Ok (Break st') => Ok st'
        | Raise e => Raise e
        | OutOfFuel => OutOfFuel
        end
    end
  else Ok st.

Definition WIRE_VARINT := 0.
Definition WIRE_64BIT := 1.
Definition WIRE_LENGTH := 2.
Definition WIRE_32BIT := 5.

(** The wire types the codec knows. *)
Definition supported_wire (wire : Z) : bool :=
  (wire =? WIRE_VARINT) || (wire =? WIRE_64BIT) || (wire =? WIRE_LENGTH) || (wire =? WIRE_32BIT).

(** The generic skip of a field by its wire type, written out four times
    in the source; [None] is the final [else], where the four copies
    differ. *)
Definition skip_field (data : bytes) (offset wire : Z) : outcome (option Z) :=
  if wire =? WIRE_VARINT then
    '(_, offset) <- read_varint data offset ;; Ok (Some offset)
  else if wire =? WIRE_64BIT then Ok (Some (offset + 8))
  else if wire =? WIRE_LENGTH then
    '(l, offset) <- read_varint data offset ;; Ok (Some (offset + l))
  else if wire =? WIRE_32BIT then Ok (Some (offset + 4))
  else Ok None.

(** ** The Value message *)

(** The [found] dict of [parse_value_message] maps a type name to a value;
    the entry [found[t] = x] is kept as the tagged value [(t, x)]. *)
Definition found_dict := list PreferenceValue.

Definition same_type (v w : PreferenceValue) : bool :=
  match type_of v with
  | Some t => has_type t w
  | None => false
  end.

Fixpoint found_set (v : PreferenceValue) (found : found_dict) : found_dict :=
  match found with
  | [] => [v]
  | w :: found' => if same_type v w then v :: found' else w :: found_set v found'
  end.

Definition found_get (t : type_name) (found : found_dict) : option PreferenceValue :=
  find (has_type t) found.

(** The inner loop of field 6: one round over the StringSet submessage. *)
Definition string_set_step (sub : bytes) (suboff : Z) (arr : list str)
    : outcome (step (list str)) :=
  '(stag, suboff) <- read_varint sub suboff ;;
  let sfield := Z.shiftr stag 3 in
  let swire := Z.land stag 0x7 in
  if (sfield =? 1) && (swire =? WIRE_LENGTH) then
    '(sln, suboff) <- read_varint sub suboff ;;
    Ok (Next (suboff + sln) (arr ++ [utf8_decode (slice sub suboff (suboff + sln))]))
  else
    skipped <- skip_field sub suboff swire ;;
    match skipped with
    | Some suboff => Ok (Next suboff arr)
    | None => Ok (Break arr)
    end.

Definition parse_string_set (sub : bytes) : outcome (list str) :=
  while_lt (length sub) (len sub) (string_set_step sub) 0 [].

(** One round of the loop of [parse_value_message], up to the assignment to
    [found]: the field read at [offset], if it is a known one, and the
    offset after it. *)
Definition read_value_field (data : bytes) (offset : Z)
    : outcome (Z * option PreferenceValue) :=
  '(tag, offset) <- read_varint data offset ;;
  let field_num := Z.shiftr tag 3 in
  let wire := Z.land tag 0x7 in
  if (field_num =? 1) && (wire =? WIRE_VARINT) then
    '(v, offset) <- read_varint data offset ;;
    Ok (offset, Some (Boolean (negb (v =? 0))))
  else if (field_num =? 2) && (wire =? WIRE_32BIT) then
    '(raw, offset) <- read_fixed32 data offset ;;
    Ok (offset, Some (Float raw))
  else if (field_num =? 3) && (wire =? WIRE_VARINT) then
    '(v, offset) <- read_varint data offset ;;
    Ok (offset, Some (Integer (if v <=? 0x7fffffff then v else v - Z.shiftl 1 32)))
  else if (field_num =? 4) && (wire =? WIRE_VARINT) then
    '(v, offset) <- read_varint data offset ;;
    Ok (offset, Some (Long (if v <=? 0x7fffffffffffffff then v else v - Z.shiftl 1 64)))
  else if (field_num =? 5) && (wire =? WIRE_LENGTH) then
    '(ln, offset) <- read_varint data offset ;;
    if offset + ln >? len data then Raise TruncatedString
    else Ok (offset + ln, Some (String (utf8_decode (slice data offset (offset + ln)))))
  else if (field_num =? 6) && (wire =? WIRE_LENGTH) then
    '(ln, offset) <- read_varint data offset ;;
    if offset + ln >? len data then Raise TruncatedStringSet
    else
      arr <- parse_string_set (slice data offset (offset + ln)) ;;
      Ok (offset + ln, Some (StringSet arr))
  else if (field_num =? 7) && (wire =? WIRE_64BIT) then
    '(raw, offset) <- read_fixed64 data offset ;;
    Ok (offset, Some (Double raw))
  else
    skipped <- skip_field data offset wire ;;
    match skipped with
    | Some offset => Ok (offset, None)
    | None => Raise UnknownWireValue
    end.

Definition value_step (data : bytes) (offset : Z) (found : found_dict)
    : outcome (step found_dict) :=
  '(offset, field) <- read_value_field data offset ;;
  match field with
  | Some v => Ok (Next offset (found_set v found))
  | None => Ok (Next offset found)
  end.

(** [for t in ['boolean', ...]: if t in found: return t, found[t]] and the
    final [return None, None]. *)
Fixpoint first_found (ts : list type_name) (found : found_dict) : PreferenceValue :=
  match ts with
  | [] => Absent
  | t :: ts' =>
      match found_get t found with
      | Some v => v
      | None => first_found ts' found
      end
  end.

Definition priority : list type_name :=
  [boolean; float; integer; long; string; string_set; double].

Definition parse_value_message (data : bytes) : outcome PreferenceValue :=
  found <- while_lt (length data) (len data) (value_step data) 0 [] ;;
  Ok (first_found priority found).

Definition encode_string_set_item (s : str) : outcome bytes :=
  sb <- utf8_encode s ;;
  Ok (encode_varint (Z.lor (Z.shiftl 1 3) WIRE_LENGTH) ++ encode_varint (len sb) ++ sb).

Fixpoint encode_string_set_items (value : list str) : outcome bytes :=
  match value with
  | [] => Ok []
  | s :: value' =>
      item <- encode_string_set_item s ;;
      inner <- encode_string_set_items value' ;;
      Ok (item ++ inner)
  end.

Definition encode_value_message (v : PreferenceValue) : outcome bytes :=
  match v with
  | Boolean value =>
      Ok (encode_varint (Z.lor (Z.shiftl 1 3) WIRE_VARINT)
          ++ encode_varint (if value then 1 else 0))
  | Float value =>
      Ok (encode_varint (Z.lor (Z.shiftl 2 3) WIRE_32BIT) ++ encode_fixed32 value)
  | Integer value =>
      Ok (encode_varint (Z.lor (Z.shiftl 3 3) WIRE_VARINT) ++ encode_varint value)
  | Long value =>
      Ok (encode_varint (Z.lor (Z.shiftl 4 3) WIRE_VARINT) ++ encode_varint value)
  | String value =>
      b <- utf8_encode value ;;
      Ok (encode_varint (Z.lor (Z.shiftl 5 3) WIRE_LENGTH) ++ encode_varint (len b) ++ b)
  | StringSet value =>
      inner_bytes <- encode_string_set_items value ;;
      Ok (encode_varint (Z.lor (Z.shiftl 6 3) WIRE_LENGTH)
          ++ encode_varint (len inner_bytes) ++ inner_bytes)
  | Double value =>
      Ok (encode_varint (Z.lor (Z.shiftl 7 3) WIRE_64BIT) ++ encode_fixed64 value)
  | Absent => Raise UnknownTypeForEncoding
  end.

(** ** The top-level message *)

(** What one round of the MapEntry loop assigns: [key] or [val_bytes]. *)
Inductive entry_field : Type :=
| EKey (key : str)
| EValue (val_bytes : bytes).

Definition read_entry_field (entry : bytes) (eoff : Z)
    : outcome (Z * option entry_field) :=
  '(etag, eoff) <- read_varint entry eoff ;;
  let efnum := Z.shiftr etag 3 in
  let ewire := Z.land etag 0x7 in
  if (efnum =? 1) && (ewire =? WIRE_LENGTH) then
    '(klen, eoff) <- read_varint entry eoff ;;
    Ok (eoff + klen, Some (EKey (utf8_decode (slice entry eoff (eoff + klen)))))
  else if (efnum =? 2) && (ewire =? WIRE_LENGTH) then
    '(vlen, eoff) <- read_varint entry eoff ;;
    Ok (eoff + vlen, Some (EValue (slice entry eoff (eoff + vlen))))
  else
    skipped <- skip_field entry eoff ewire ;;
    match skipped with
    | Some eoff => Ok (eoff, None)
    | None => Raise UnknownWireEntry
    end.

Definition entry_state : Type := option str * option bytes.

Definition entry_assign (field : option entry_field) (st : entry_state) : entry_state :=
  match field with
  | Some (EKey key) => (Some key, snd st)
  | Some (EValue val_bytes) => (fst st, Some val_bytes)
  | None => st
  end.

Definition entry_step (entry : bytes) (eoff : Z) (st : entry_state)
    : outcome (step entry_state) :=
  '(eoff, field) <- read_entry_field entry eoff ;;
  Ok (Next eoff (entry_assign field st)).

(** The loop over one MapEntry slice: the last key and the last value
    slice seen, [None] for what was not seen. *)
Definition parse_map_entry (entry : bytes) : outcome entry_state :=
  while_lt (length entry) (len entry) (entry_step entry) 0 (None, None).

(** [if key is not None: ...] after the loop. *)
Definition store_entry (st : entry_state) (res : PreferenceMap) : outcome PreferenceMap :=
  match st with
  | (Some key, None) => Ok (dict_set key Absent res)
  | (Some key, Some val_bytes) =>
      v <- parse_value_message val_bytes ;;
      Ok (dict_set key v res)
  | (None, _) => Ok res
  end.

Definition decode_map_entry (entry : bytes) (res : PreferenceMap) : outcome PreferenceMap :=
  st <- parse_map_entry entry ;;
  store_entry st res.

Definition top_step (raw_bytes : bytes) (offset : Z) (res : PreferenceMap)
    : outcome (step PreferenceMap) :=
  '(tag, offset) <- read_varint raw_bytes offset ;;
  let field_num := Z.shiftr tag 3 in
  let wire := Z.land tag 0x7 in
  if (field_num =? 1) && (wire =? WIRE_LENGTH) then
    '(length, offset) <- read_varint raw_bytes offset ;;
    let entry := slice raw_bytes offset (offset + length) in
    let offset := offset + length in
    res <- decode_map_entry entry res ;;
    Ok (Next offset res)
  else
    skipped <- skip_field raw_bytes offset wire ;;
    match skipped with
    | Some offset => Ok (Next offset res)
    | None => Raise UnknownWireTop
    end.

Definition parse_preferences_pb (raw_bytes : bytes) : outcome PreferenceMap :=
  while_lt (length raw_bytes) (len raw_bytes) (top_step raw_bytes) 0 [].

Definition encode_entry (key : str) (v : PreferenceValue) : outcome bytes :=
  kbytes <- utf8_encode key ;;
  let entry_parts :=
    encode_varint (Z.lor (Z.shiftl 1 3) WIRE_LENGTH) ++ encode_varint (len kbytes) ++ kbytes in
  entry_bytes <-
    match v with
    | Absent => Ok entry_parts
    | _ =>
        vbytes <- encode_value_message v ;;
        Ok (entry_parts ++ encode_varint (Z.lor (Z.shiftl 2 3) WIRE_LENGTH)
                        ++ encode_varint (len vbytes) ++ vbytes)
    end ;;
  Ok (encode_varint (Z.lor (Z.shiftl 1 3) WIRE_LENGTH)
      ++ encode_varint (len entry_bytes) ++ entry_bytes).

Fixpoint encode_preferences_dict (pref_dict : PreferenceMap) : outcome bytes :=
  match pref_dict with
  | [] => Ok []
  | (key, v) :: pref_dict' =>
      e <- encode_entry key v ;;
      es <- encode_preferences_dict pref_dict' ;;
      Ok (e ++ es)
  end.

(** ** What a slice contains

    The fields a decoder meets while it scans a slice, in the order of the
    bytes: the reading of the specification's "contains a known field". *)

Fixpoint value_fields_from (fuel : nat) (data : bytes) (offset : Z)
    : outcome (list PreferenceValue) :=
  if offset <? len data then
    match fuel with
    | O => OutOfFuel
    | S fuel' =>
        '(offset, field) <- read_value_field data offset ;;
        fs <- value_fields_from fuel' data offset ;;
        Ok (match field with Some v => v :: fs | None => fs end)
    end
  else Ok [].

Definition value_fields (data : bytes) : outcome (list PreferenceValue) :=
  value_fields_from (length data) data 0.

Fixpoint entry_fields_from (fuel : nat) (entry : bytes) (eoff : Z)
    : outcome (list entry_field) :=
  if eoff <? len entry then
    match fuel with
    | O => OutOfFuel
    | S fuel' =>
        '(eoff, field) <- read_entry_field entry eoff ;;
        fs <- entry_fields_from fuel' entry eoff ;;
        Ok (match field with Some f => f :: fs | None => fs end)
    end
  else Ok [].

Definition entry_fields (entry : bytes) : outcome (list entry_field) :=
  entry_fields_from (length entry) entry 0.

(** What the loop of [parse_value_message] leaves in [found] after it met
    the fields [fs], and what the MapEntry loop leaves in [key] and
    [val_bytes]. *)
Definition store_fields (fs : list PreferenceValue) (found : found_dict) : found_dict :=
  fold_left (fun found v => found_set v found) fs found.

Definition assign_fields (fs : list entry_field) (st : entry_state) : entry_state :=
  fold_left (fun st f => entry_assign (Some f) st) fs st.

(** The field number of a variant in the Value message. *)
Definition field_number (v : PreferenceValue) : Z :=
  match v with
  | Boolean _ => 1
  | Float _ => 2
  | Integer _ => 3
  | Long _ => 4
  | String _ => 5
  | StringSet _ => 6
  | Double _ => 7
  | Absent => 0
  end.

(** The place of a variant in the order Boolean, Float, Integer, Long,
    String, StringSet, Double. *)
Definition rank (v : PreferenceValue) : nat :=
  match v with
  | Boolean _ => 0
  | Float _ => 1
  | Integer _ => 2
  | Long _ => 3
  | String _ => 4
  | StringSet _ => 5
  | Double _ => 6
  | Absent => 7
  end.

Definition is_key (f : entry_field) : bool :=
  match f with EKey _ => true | EValue _ => false end.

Definition is_value (f : entry_field) : bool :=
  match f with EKey _ => false | EValue _ => true end.

(** The two's-complement reading of the low [w] bits of [v]. *)
Definition twos_complement (w v : Z) : Z :=
  let low := v mod 2 ^ w in
  if low <? 2 ^ (w - 1) then low else low - 2 ^ w.

(** The strings [str.encode('utf-8')] accepts: code points of the Unicode
    range that are not surrogates. *)
Definition scalar_value (c : Z) : Prop :=
  0 <= c <= 0x10FFFF /\ ~ (0xD800 <= c <= 0xDFFF).

Definition encodable (s : str) : Prop := Forall scalar_value s.

(** The values the data model allows, the negative Integers left out
    ([C1_negative_integer_round_trip]): a [float] is a 32-bit pattern, a
    [double] a 64-bit one, a Long is in the signed 64-bit range and every
    string can be encoded. *)
Definition valid_value (v : PreferenceValue) : Prop :=
  match v with
  | Boolean _ => True
  | Float bits => 0 <= bits < 2 ^ 32
  | Integer value => 0 <= value < 2 ^ 31
  | Long value => - 2 ^ 63 <= value < 2 ^ 63
  | String s => encodable s
  | StringSet arr => Forall encodable arr
  | Double bits => 0 <= bits < 2 ^ 64
  | Absent => True
  end.

Definition valid_entry (kv : str * PreferenceValue) : Prop :=
  encodable (fst kv) /\ valid_value (snd kv).

(** A map whose keys and strings can be encoded, whose Integers are in
    [0, 2^31), whose Longs are 64-bit and whose floats are bit patterns of
    their width. *)
Definition valid_map (m : PreferenceMap) : Prop :=
  NoDup (map fst m) /\ Forall valid_entry m.

(** A [bytes] literal, written as the list of its byte values. *)
Definition bytes_of (l : list Z) : bytes := map byte.of_Z l.

(** ** Fixtures *)

(** Ten groups with the continuation bit and a final group. *)
Definition eleven_groups : bytes :=
  bytes_of [0x80; 0x80; 0x80; 0x80; 0x80; 0x80; 0x80; 0x80; 0x80; 0x80; 0x00].

(** Eleven groups with the continuation bit. *)
Definition eleven_continued : bytes :=
  bytes_of [0x80; 0x80; 0x80; 0x80; 0x80; 0x80; 0x80; 0x80; 0x80; 0x80; 0x80].

(** Ten groups whose payload bits are all set: the varint of [2 ^ 70 - 1]. *)
Definition seventy_ones : bytes :=
  bytes_of [0xff; 0xff; 0xff; 0xff; 0xff; 0xff; 0xff; 0xff; 0xff; 0x7f].

(** The key ["k"]. *)
Definition key_k : str := [0x6b].

(** Value field 3 (tag [0x18]) carrying the varint of [2 ^ 64 - 1], which is
    how [encode_varint] writes [-1]. *)
Definition integer_minus_one : bytes :=
  bytes_of [0x18; 0xff; 0xff; 0xff; 0xff; 0xff; 0xff; 0xff; 0xff; 0xff; 0x01].

(** Value field 3 carrying the varints of [0x7fffffff] and [0x80000000]. *)
Definition integer_max : bytes := bytes_of [0x18; 0xff; 0xff; 0xff; 0xff; 0x07].
Definition integer_min : bytes := bytes_of [0x18; 0x80; 0x80; 0x80; 0x80; 0x08].

(** A top-level MapEntry declared five bytes long with three bytes left:
    field 1, the key ["k"]. *)
Definition short_entry : bytes := bytes_of [0x0a; 0x05; 0x0a; 0x01; 0x6b].

(** A MapEntry whose key is declared five bytes long with one byte left. *)
Definition short_key : bytes := bytes_of [0x0a; 0x03; 0x0a; 0x05; 0x6b].

(** A MapEntry with the key ["k"] and a value slice declared nine bytes
    long with two bytes left: Value field 1, [true]. *)
Definition short_value : bytes :=
  bytes_of [0x0a; 0x07; 0x0a; 0x01; 0x6b; 0x12; 0x09; 0x08; 0x01].

(** A Value message with a StringSet (field 6) of three bytes, whose one
    element is declared five bytes long with one byte, ["a"], left. *)
Definition short_set_element : bytes := bytes_of [0x32; 0x03; 0x0a; 0x05; 0x61].

(** A Value message with a String (field 5) declared five bytes long with
    one byte left, and one with a StringSet declared three bytes long with
    two bytes left. *)
Definition short_string : bytes := bytes_of [0x2a; 0x05; 0x61].
Definition short_string_set : bytes := bytes_of [0x32; 0x03; 0x0a; 0x00].

(** A MapEntry with the key ["k"] and a Value whose StringSet submessage
    is the one tag [0x0b]: field 1 with wire type 3. *)
Definition group_in_string_set : bytes :=
  bytes_of [0x0a; 0x08; 0x0a; 0x01; 0x6b; 0x12; 0x03; 0x32; 0x01; 0x0b].

(** The same tag [0x0b] at the top level, in a MapEntry and in a Value. *)
Definition group_at_top : bytes := bytes_of [0x0b].
Definition group_in_entry : bytes := bytes_of [0x0a; 0x01; 0x0b].
Definition group_in_value : bytes :=
  bytes_of [0x0a; 0x06; 0x0a; 0x01; 0x6b; 0x12; 0x01; 0x0b].

(** A Value message with Integer 5, Boolean true and Integer 7, in this
    order, and a MapEntry with the key ["k"] alone. *)
Definition three_fields : bytes := bytes_of [0x18; 0x05; 0x08; 0x01; 0x18; 0x07].
Definition key_only : bytes := bytes_of [0x0a; 0x01; 0x6b].

(** A Value message with Integer 5 and Integer 7, and a MapEntry with an
    empty value slice and no key. *)
Definition repeated_field : bytes := bytes_of [0x18; 0x05; 0x18; 0x07].
Definition value_only : bytes := bytes_of [0x12; 0x00].

(** * The rest of the code *)

(** ** Unknown fields and longer buffers *)

(** The payload of a field, one constructor per wire type, and the bytes
    of a field as the wire format lays them out: the tag
    [field_num << 3 | wire], then the payload. *)
Inductive payload : Type :=
| VarintPayload (x : Z)
| Fixed64Payload (b : bytes)
| LengthPayload (p : bytes)
| Fixed32Payload (b : bytes).

Definition payload_wire (p : payload) : Z :=
  match p with
  | VarintPayload _ => WIRE_VARINT
  | Fixed64Payload _ => WIRE_64BIT
  | LengthPayload _ => WIRE_LENGTH
  | Fixed32Payload _ => WIRE_32BIT
  end.

Definition payload_bytes (p : payload) : bytes :=
  match p with
  | VarintPayload x => encode_varint x
  | Fixed64Payload b => b
  | LengthPayload p => encode_varint (len p) ++ p
  | Fixed32Payload b => b
  end.

(** A varint payload is an unsigned 64-bit value and a fixed-width payload
    has its eight or four bytes. *)
Definition well_formed_payload (p : payload) : Prop :=
  match p with
  | VarintPayload x => 0 <= x < 2 ^ 64
  | Fixed64Payload b => len b = 8
  | LengthPayload p => len p < 2 ^ 63
  | Fixed32Payload b => len b = 4
  end.

Definition encode_field (field_num : Z) (p : payload) : bytes :=
  encode_varint (Z.lor (Z.shiftl field_num 3) (payload_wire p)) ++ payload_bytes p.

(** The fields the Value loop and the top-level loop decode; every other
    field takes the generic skip. *)
Definition known_value_field (field_num wire : Z) : bool :=
  ((field_num =? 1) && (wire =? WIRE_VARINT))
  || ((field_num =? 2) && (wire =? WIRE_32BIT))
  || ((field_num =? 3) && (wire =? WIRE_VARINT))
  || ((field_num =? 4) && (wire =? WIRE_VARINT))
  || ((field_num =? 5) && (wire =? WIRE_LENGTH))
  || ((field_num =? 6) && (wire =? WIRE_LENGTH))
  || ((field_num =? 7) && (wire =? WIRE_64BIT)).

Definition known_top_field (field_num wire : Z) : bool :=
  (field_num =? 1) && (wire =? WIRE_LENGTH).

(** The loop of [parse_preferences_pb] started with a map [res] that is
    not empty; [parse_preferences_pb] is [parse_preferences_into []]. *)
Definition parse_preferences_into (res : PreferenceMap) (raw_bytes : bytes)
    : outcome PreferenceMap :=
  while_lt (length raw_bytes) (len raw_bytes) (top_step raw_bytes) 0 res.


(** The three kinds of error of the decoder. *)
Definition decode_error (e : exn) : Prop :=
  kind_of e = TruncatedData \/ kind_of e = VarintOverflow \/ kind_of e = UnsupportedWireType.

Definition raises_only {A} (P : exn -> Prop) (m : outcome A) : Prop :=
  forall e, m = Raise e -> P e.

(** ** The backup creator: names and dropped paths *)

(** Text constants of the two programs. *)
Module Literal.
Import String.

(** An ASCII literal as a [str]. *)
Definition of_string (s : String.string) : str :=
  List.map (fun a => Z.of_N (Ascii.N_of_ascii a)) (list_ascii_of_string s).

(** The separator of a list line, the suffix of the backup file, and the
    default name and the allowed characters of [sanitize_filename]. *)
Definition list_separator : str := of_string "  [".
Definition bak : str := of_string ".bak".
Definition backup : str := of_string "backup".
Definition allowed : str :=
  of_string "abcdefghijklmnopqrstuvwxyzABCDEFGHIJKLMNOPQRSTUVWXYZ0123456789-_ .".
Definition open_brace : Z := 123.
Definition close_brace : Z := 125.
Definition space : Z := 32.

End Literal.

(** [c.isspace()] for one code point, as [str.strip()] uses it. *)
Definition py_isspace (c : Z) : bool :=
  ((0x09 <=? c) && (c <=? 0x0D)) || ((0x1C <=? c) && (c <=? 0x20))
  || (c =? 0x85) || (c =? 0xA0) || (c =? 0x1680)
  || ((0x2000 <=? c) && (c <=? 0x200A))
  || (c =? 0x2028) || (c =? 0x2029) || (c =? 0x202F) || (c =? 0x205F) || (c =? 0x3000).

(** [s.lstrip()], [s.rstrip()] and [s.strip()]. *)
Fixpoint lstrip (s : str) : str :=
  match s with
  | [] => []
  | c :: s' => if py_isspace c then lstrip s' else s
  end.

Definition rstrip (s : str) : str := rev (lstrip (rev s)).

Definition strip (s : str) : str := rstrip (lstrip s).

(** [c in allowed]. *)
Definition allowed_char (c : Z) : bool := existsb (Z.eqb c) Literal.allowed.

(** [sanitize_filename] of the backup creator:
    [''.join(c for c in name if c in allowed).strip() or 'backup']. *)
Definition sanitize_filename (name : str) : str :=
  match strip (filter allowed_char name) with
  | [] => Literal.backup
  | kept => kept
  end.

(** The loop of [_parse_dnd_data]. *)
Fixpoint parse_dnd_loop (data : str) (out : list str) (cur : str) (in_brace : bool)
    : list str :=
  match data with
  | [] => match cur with [] => out | _ => out ++ [cur] end
  | c :: data' =>
      if c =? Literal.open_brace then parse_dnd_loop data' out [] true
      else if c =? Literal.close_brace then parse_dnd_loop data' (out ++ [cur]) [] false
      else if (c =? Literal.space) && negb in_brace then
        match cur with
        | [] => parse_dnd_loop data' out cur in_brace
        | _ => parse_dnd_loop data' (out ++ [cur]) [] in_brace
        end
      else parse_dnd_loop data' out (cur ++ [c]) in_brace
  end.

Definition _parse_dnd_data (data : str) : list str := parse_dnd_loop data [] [] false.

(** The two ways a drop names its paths: each path in braces, or bare
    paths, with one space between two paths. *)
Fixpoint braced_paths (paths : list str) : str :=
  match paths with
  | [] => []
  | [p] => Literal.open_brace :: p ++ [Literal.close_brace]
  | p :: paths' =>
      Literal.open_brace :: p ++ [Literal.close_brace; Literal.space] ++ braced_paths paths'
  end.

Fixpoint bare_paths (paths : list str) : str :=
  match paths with
  | [] => []
  | [p] => p
  | p :: paths' => p ++ [Literal.space] ++ bare_paths paths'
  end.

(** A path without braces, and a path that can be written bare. *)
Definition no_brace (p : str) : Prop :=
  ~ In Literal.open_brace p /\ ~ In Literal.close_brace p.

Definition bare_path (p : str) : Prop :=
  p <> [] /\ no_brace p /\ ~ In Literal.space p.

(** ** The editor: list, files and new keys *)

(** The tail of a list line and the seven type names. *)
Module EditorText.
Import String.
Definition line_tail : str := Literal.of_string "]  ".
Definition name_string : str := Literal.of_string "string".
Definition name_boolean : str := Literal.of_string "boolean".
Definition name_integer : str := Literal.of_string "integer".
Definition name_long : str := Literal.of_string "long".
Definition name_float : str := Literal.of_string "float".
Definition name_double : str := Literal.of_string "double".
Definition name_string_set : str := Literal.of_string "string_set".
End EditorText.

(** ['string', 'boolean', 'integer', 'long', 'float', 'double', 'string_set'],
    each with the type it names. *)
Definition type_names : list (str * type_name) :=
  [(EditorText.name_string, string); (EditorText.name_boolean, boolean);
   (EditorText.name_integer, integer); (EditorText.name_long, long);
   (EditorText.name_float, float); (EditorText.name_double, double);
   (EditorText.name_string_set, string_set)].

(** [s.startswith(prefix)]. *)
Fixpoint starts_with (prefix s : str) : bool :=
  match prefix, s with
  | [], _ => true
  | p :: prefix', c :: s' => (p =? c) && starts_with prefix' s'
  | _ :: _, [] => false
  end.

(** [sep in s]. *)
Fixpoint contains (sep s : str) : bool :=
  match s with
  | [] => starts_with sep []
  | _ :: s' => starts_with sep s || contains sep s'
  end.

(** [s.split(sep)[0]] for a non-empty [sep]: the text before the first
    occurrence of [sep], all of [s] if there is none. *)
Fixpoint split_head (sep s : str) : str :=
  match s with
  | [] => []
  | c :: s' => if starts_with sep s then [] else c :: split_head sep s'
  end.

(** The line [refresh_listbox] inserts for a key:
    [f"{k}  [{typ if typ else 'unknown'}]  {repr(val)}"]. *)
Definition listbox_line (k typ_text val_repr : str) : str :=
  k ++ Literal.list_separator ++ typ_text ++ EditorText.line_tail ++ val_repr.

(** [key = entry.split("  [")[0]] of [on_select] and [remove_key]. *)
Definition selected_key (entry : str) : str := split_head Literal.list_separator entry.

(** [d.pop(k, None)]. *)
Fixpoint dict_pop {V} (k : str) (d : dict V) : dict V :=
  match d with
  | [] => []
  | (k', v) :: d' => if str_eqb k' k then d' else (k', v) :: dict_pop k d'
  end.

(** [remove_key] on the selected line, once the user has confirmed. *)
Definition remove_key (entry : str) (pref_dict : PreferenceMap) : PreferenceMap :=
  dict_pop (selected_key entry) pref_dict.

(** The files of the editor's folder: a path is mapped to the bytes of the
    file, and a path that is not mapped does not exist.  Opening a mapped
    path and writing to any path succeed. *)
Definition file_system := dict bytes.

(** [save_file]: the files after the call. *)
Definition save_file (filename : option str) (pref_dict : PreferenceMap)
    (fs : file_system) : file_system :=
  match filename with
  | None | Some [] => fs
  | Some filename =>
      let backup := filename ++ Literal.bak in
      let backed_up :=
        match dict_get backup fs with
        | Some _ => Some fs
        | None =>
            match dict_get filename fs with
            | Some old => Some (dict_set backup old fs)
            | None => None
            end
        end in
      match backed_up with
      | None => fs
      | Some fs =>
          match encode_preferences_dict pref_dict with
          | Ok out => dict_set filename out fs
          | _ => fs
          end
      end
  end.


(** [t in ['string', 'boolean', ...]] for the text of the type dialog. *)
Fixpoint type_of_text (names : list (str * type_name)) (t : str) : option type_name :=
  match names with
  | [] => None
  | (name, tn) :: names' => if str_eqb name t then Some tn else type_of_text names' t
  end.

(** The value [add_key] stores for a new key of each type. *)
Definition default_value (t : type_name) : PreferenceValue :=
  match t with
  | string_set => StringSet []
  | boolean => Boolean false
  | integer => Integer 0
  | long => Long 0
  | float => Float 0
  | double => Double 0
  | string => String []
  end.

(** [add_key]: the map after the call; [k] and [t] are what the two
    dialogs return, [None] when the user cancels. *)
Definition add_key (filename : option str) (k t : option str) (pref_dict : PreferenceMap)
    : PreferenceMap :=
  match filename, k with
  | None, _ | _, None | _, Some [] => pref_dict
  | Some _, Some k =>
      match dict_get k pref_dict, t with
      | Some _, _ | _, None | _, Some [] => pref_dict
      | None, Some t =>
          match type_of_text type_names (strip t) with
          | None => pref_dict
          | Some tn => dict_set k (default_value tn) pref_dict
          end
      end
  end.

(** ** More fixtures *)

(** Two keys and two value slices: key "a", Boolean true, key "k", Integer 5. *)
Definition two_keys_two_values : bytes :=
  bytes_of [0x0a; 0x01; 0x61; 0x12; 0x02; 0x08; 0x01;
            0x0a; 0x01; 0x6b; 0x12; 0x02; 0x18; 0x05].

(** Fixtures. *)
Definition eight_bytes : bytes := bytes_of [1; 2; 3; 4; 5; 6; 7; 8].


Definition map_one : PreferenceMap := [(key_k, Integer 5)].
Definition map_two : PreferenceMap := [(key_k, Boolean true); ([0x61], Absent)].


Definition two_paths : list str := [[0x43; 0x3a; 0x20; 0x61]; [0x62]].
Definition two_bare_paths : list str := [[0x2f; 0x61]; [0x2f; 0x62]].

(** The keys "k" and "a  [b". *)
Definition key_with_separator : str := [0x61; 0x20; 0x20; 0x5b; 0x62].
Definition map_with_separator : PreferenceMap :=
  [(key_k, Integer 5); (key_with_separator, Boolean true)].

(** The file "k" with the bytes [01 02], and no backup yet. *)
Definition one_file : file_system := [(key_k, bytes_of [1; 2])].

(** A map whose one key is a lone surrogate, which [str.encode] refuses. *)
Definition map_surrogate : PreferenceMap := [([0xD800], Absent)].

(** * Proofs *)

(** ** Bit operations as arithmetic *)

Lemma byte_range (b : byte) : 0 <= byte.unsigned b < 256.
Proof. pose proof (byte.unsigned_range b) as H. change (2 ^ 8) with 256 in H. exact H. Qed.

Lemma unsigned_of_Z_small z : 0 <= z < 256 -> byte.unsigned (byte.of_Z z) = z.
Proof.
  intros H. rewrite byte.unsigned_of_Z. unfold byte.wrap.
  apply Z.mod_small. change (2 ^ 8) with 256. lia.
Qed.

Lemma land_7f x : Z.land x 0x7F = x mod 128.
Proof. change 0x7F with (Z.ones 7). rewrite Z.land_ones by lia. reflexivity. Qed.

Lemma land_disjoint r y s : 0 <= s -> 0 <= r < 2 ^ s -> Z.land r (Z.shiftl y s) = 0.
Proof.
  intros Hs Hr. apply Z.bits_inj'. intros n Hn.
  rewrite Z.land_spec, Z.bits_0.
  destruct (Z.ltb_spec n s).
  - rewrite Z.shiftl_spec_low by lia. apply andb_false_r.
  - replace r with (r mod 2 ^ s) by (apply Z.mod_small; lia).
    rewrite Z.mod_pow2_bits_high by lia. reflexivity.
Qed.

Lemma lor_shiftl_add r y s :
  0 <= s -> 0 <= r < 2 ^ s -> Z.lor r (Z.shiftl y s) = r + y * 2 ^ s.
Proof.
  intros Hs Hr.
  rewrite <- Z.lxor_lor by (apply land_disjoint; lia).
  rewrite <- Z.add_nocarry_lxor by (apply land_disjoint; lia).
  rewrite Z.shiftl_mul_pow2 by lia. reflexivity.
Qed.

Lemma land_80 x : 0 <= x < 256 -> Z.land x 0x80 = if x <? 128 then 0 else 128.
Proof.
  intros H.
  replace x with (byte.unsigned (byte.of_Z x)) by (apply unsigned_of_Z_small; lia).
  destruct (byte.of_Z x); reflexivity.
Qed.

Lemma lor_80 x : 0 <= x < 128 -> Z.lor x 0x80 = x + 128.
Proof.
  intros H. transitivity (Z.lor x (Z.shiftl 1 7)); [reflexivity|].
  rewrite lor_shiftl_add; change (2 ^ 7) with 128; lia.
Qed.

Lemma pow7_succ k : 0 <= k -> 2 ^ (7 * (k + 1)) = 128 * 2 ^ (7 * k).
Proof.
  intros H. replace (7 * (k + 1)) with (7 + 7 * k) by lia.
  rewrite Z.pow_add_r by lia. reflexivity.
Qed.

(** ** Varints *)

Lemma read_varint_from_cons b rest result shift pos :
  read_varint_from (b :: rest) result shift pos =
  if byte.unsigned b <? 128
  then Ok (Z.lor result (Z.shiftl (byte.unsigned b mod 128) shift), pos + 1)
  else if shift + 7 >? 70 then Raise VarintTooBig
       else read_varint_from rest
              (Z.lor result (Z.shiftl (byte.unsigned b mod 128) shift)) (shift + 7) (pos + 1).
Proof.
  cbn [read_varint_from]. rewrite land_7f, (land_80 _ (byte_range b)).
  destruct (byte.unsigned b <? 128); reflexivity.
Qed.

(** A successful read started at group [k] ends at most [11 - k] bytes
    further, with a value below [2 ^ 77]. *)
Lemma read_varint_from_bounds rest : forall result k pos v pos',
  0 <= k <= 10 -> 0 <= result < 2 ^ (7 * k) ->
  read_varint_from rest result (7 * k) pos = Ok (v, pos') ->
  pos < pos' <= pos + (11 - k) /\ pos' - pos <= len rest /\ 0 <= v < 2 ^ 77.
Proof.
  induction rest as [|b rest IH]; intros result k pos v pos' Hk Hr H.
  - discriminate H.
  - rewrite read_varint_from_cons in H.
    pose proof (byte_range b) as Hb.
    pose proof (Z.mod_pos_bound (byte.unsigned b) 128 ltac:(lia)) as Hm.
    rewrite lor_shiftl_add in H by lia.
    assert (Hstep : 0 <= result + byte.unsigned b mod 128 * 2 ^ (7 * k) < 2 ^ (7 * (k + 1))).
    { rewrite pow7_succ by lia. nia. }
    unfold len in *. cbn [length]. rewrite Nat2Z.inj_succ.
    destruct (byte.unsigned b <? 128).
    + injection H as <- <-. split; [lia|]. split; [lia|].
      split; [lia|].
      apply Z.lt_le_trans with (2 ^ (7 * (k + 1))); [exact (proj2 Hstep)|].
      apply Z.pow_le_mono_r; lia.
    + destruct (Z.gtb_spec (7 * k + 7) 70) as [Hgt|Hle]; [discriminate H|].
      replace (7 * k + 7) with (7 * (k + 1)) in H by lia.
      apply IH in H; [lia | lia | lia].
Qed.

Lemma read_varint_bounds data offset v pos :
  read_varint data offset = Ok (v, pos) ->
  offset < pos <= offset + 11 /\ 0 <= v < 2 ^ 77.
Proof.
  unfold read_varint. destruct (offset >=? len data); [discriminate|].
  intros H. apply (read_varint_from_bounds _ 0 0) in H.
  - lia.
  - lia.
  - change (2 ^ (7 * 0)) with 1. lia.
Qed.

(** Eleven bytes with the continuation bit are one group too many. *)
Lemma read_varint_from_overflow rest : forall result k pos,
  0 <= k <= 10 ->
  (Z.to_nat (11 - k) <= length rest)%nat ->
  Forall (fun b => 128 <= byte.unsigned b) (firstn (Z.to_nat (11 - k)) rest) ->
  read_varint_from rest result (7 * k) pos = Raise VarintTooBig.
Proof.
  induction rest as [|b rest IH]; intros result k pos Hk Hlen Hall.
  - cbn [length] in Hlen. lia.
  - rewrite read_varint_from_cons.
    replace (Z.to_nat (11 - k)) with (S (Z.to_nat (11 - (k + 1)))) in * by lia.
    cbn [firstn length] in *. inversion Hall as [|? ? Hb Hrest]; subst.
    destruct (Z.ltb_spec (byte.unsigned b) 128); [lia|].
    destruct (Z.gtb_spec (7 * k + 7) 70) as [Hgt|Hle]; [reflexivity|].
    replace (7 * k + 7) with (7 * (k + 1)) by lia.
    apply IH; [lia | lia | exact Hrest].
Qed.

Lemma encode_varint_loop_eq fuel v :
  encode_varint_loop fuel v =
  if v / 128 =? 0 then [byte.of_Z (v mod 128)]
  else match fuel with
       | O => []
       | S fuel' => byte.of_Z (v mod 128 + 128) :: encode_varint_loop fuel' (v / 128)
       end.
Proof.
  destruct fuel; cbn [encode_varint_loop];
    rewrite land_7f, Z.shiftr_div_pow2 by lia; change (2 ^ 7) with 128;
    rewrite ?lor_80 by (apply Z.mod_pos_bound; lia); reflexivity.
Qed.

Lemma log2_div128 v : 128 <= v -> Z.log2 (v / 128) = Z.log2 v - 7.
Proof.
  intros H. change 128 with (2 ^ 7) at 1. rewrite <- Z.shiftr_div_pow2 by lia.
  rewrite Z.log2_shiftr by lia.
  assert (7 <= Z.log2 v) by (change 7 with (Z.log2 128); apply Z.log2_le_mono; lia).
  lia.
Qed.

(** More fuel than [Z.log2 value] does not change what [encode_varint]'s
    loop returns: the loop never stops for want of fuel. *)
Lemma encode_varint_loop_fuel fuel : forall v fuel',
  0 <= v -> Z.log2 v <= Z.of_nat fuel -> (fuel <= fuel')%nat ->
  encode_varint_loop fuel' v = encode_varint_loop fuel v.
Proof.
  induction fuel as [|fuel IH]; intros v fuel' Hv Hlog Hle;
    rewrite (encode_varint_loop_eq fuel'), (encode_varint_loop_eq _ v);
    destruct (Z.eqb_spec (v / 128) 0) as [Hz|Hnz]; try reflexivity.
  - assert (128 <= v) by (destruct (Z.le_gt_cases 128 v); [assumption|];
      rewrite Z.div_small in Hnz; lia).
    pose proof (log2_div128 v ltac:(lia)).
    pose proof (Z.log2_nonneg (v / 128)). lia.
  - assert (128 <= v) by (destruct (Z.le_gt_cases 128 v); [assumption|];
      rewrite Z.div_small in Hnz; lia).
    pose proof (log2_div128 v ltac:(lia)).
    destruct fuel' as [|fuel']; [lia|].
    f_equal. apply IH; [apply Z.div_pos; lia | lia | lia].
Qed.

Lemma encode_varint_loop_length fuel : forall v,
  0 <= v -> Z.log2 v <= Z.of_nat fuel -> 1 <= len (encode_varint_loop fuel v).
Proof.
  intros v Hv Hlog. rewrite encode_varint_loop_eq. unfold len.
  destruct (Z.eqb_spec (v / 128) 0) as [Hz|Hnz]; [cbn; lia|].
  assert (128 <= v) by (destruct (Z.le_gt_cases 128 v); [assumption|];
    rewrite Z.div_small in Hnz; lia).
  pose proof (log2_div128 v ltac:(lia)). pose proof (Z.log2_nonneg (v / 128)).
  destruct fuel; [lia|]. cbn [length]. lia.
Qed.

Lemma read_encode_loop fuel : forall v r k pos rest,
  0 <= k -> 0 <= v < 2 ^ (7 * (11 - k)) -> Z.log2 v <= Z.of_nat fuel ->
  0 <= r < 2 ^ (7 * k) ->
  read_varint_from (encode_varint_loop fuel v ++ rest) r (7 * k) pos =
  Ok (r + v * 2 ^ (7 * k), pos + len (encode_varint_loop fuel v)).
Proof.
  induction fuel as [|fuel IH]; intros v r k pos rest Hk Hv Hlog Hr;
    rewrite encode_varint_loop_eq;
    pose proof (Z.mod_pos_bound v 128 ltac:(lia)) as Hm;
    pose proof (Z.div_mod v 128 ltac:(lia)) as Hdm;
    destruct (Z.eqb_spec (v / 128) 0) as [Hz|Hnz].
  1, 3: cbn [app]; rewrite read_varint_from_cons, unsigned_of_Z_small by lia;
      destruct (Z.ltb_spec (v mod 128) 128); [|lia];
      rewrite Z.mod_mod, lor_shiftl_add by lia;
      do 2 f_equal; unfold len; cbn [length]; nia.
  - assert (128 <= v) by lia.
    pose proof (log2_div128 v ltac:(lia)). pose proof (Z.log2_nonneg (v / 128)). lia.
  - assert (Hv128 : 128 <= v) by lia.
    pose proof (log2_div128 v Hv128) as Hl.
    assert (Hk9 : k <= 9).
    { destruct (Z.le_gt_cases k 9); [assumption|].
      assert (2 ^ (7 * (11 - k)) <= 2 ^ 7).
      { destruct (Z.le_gt_cases 0 (7 * (11 - k))).
        - apply Z.pow_le_mono_r; lia.
        - rewrite Z.pow_neg_r by lia. lia. }
      change (2 ^ 7) with 128 in *. lia. }
    assert (Hdiv : 0 <= v / 128 < 2 ^ (7 * (11 - (k + 1)))).
    { split; [apply Z.div_pos; lia|].
      apply Z.div_lt_upper_bound; [lia|].
      rewrite <- pow7_succ by lia. replace (11 - (k + 1) + 1) with (11 - k) by lia. lia. }
    cbn [app]. rewrite read_varint_from_cons, unsigned_of_Z_small by lia.
    destruct (Z.ltb_spec (v mod 128 + 128) 128); [lia|].
    destruct (Z.gtb_spec (7 * k + 7) 70); [lia|].
    replace ((v mod 128 + 128) mod 128) with (v mod 128)
      by (change (v mod 128 + 128) with (v mod 128 + 1 * 128);
          rewrite Z.mod_add, Z.mod_mod by lia; reflexivity).
    rewrite lor_shiftl_add by lia.
    replace (7 * k + 7) with (7 * (k + 1)) by lia.
    rewrite IH; [| lia | exact Hdiv | lia | rewrite pow7_succ by lia; nia].
    f_equal. f_equal.
    + rewrite pow7_succ by lia. nia.
    + unfold len. cbn [length]. lia.
Qed.

Lemma encode_varint_nonneg v :
  0 <= v -> encode_varint v = encode_varint_loop (Z.to_nat (Z.log2 v)) v.
Proof.
  intros H. unfold encode_varint. destruct (Z.ltb_spec v 0); [lia|reflexivity].
Qed.

Lemma encode_varint_length v : 0 <= v -> 1 <= len (encode_varint v).
Proof.
  intros H. rewrite encode_varint_nonneg by assumption.
  apply encode_varint_loop_length; [assumption|].
  pose proof (Z.log2_nonneg v). lia.
Qed.

Lemma len_app {A} (l1 l2 : list A) : len (l1 ++ l2) = len l1 + len l2.
Proof. unfold len. rewrite length_app. lia. Qed.

Lemma len_nonneg {A} (l : list A) : 0 <= len l.
Proof. unfold len. lia. Qed.

Lemma skipn_len_app (pre rest : bytes) : skipn (Z.to_nat (len pre)) (pre ++ rest) = rest.
Proof.
  unfold len. rewrite Nat2Z.id. rewrite skipn_app, Nat.sub_diag, skipn_all. reflexivity.
Qed.

(** Reading back a varint written anywhere in a buffer. *)
Lemma read_varint_encode pre v post :
  0 <= v < 2 ^ 77 ->
  read_varint (pre ++ encode_varint v ++ post) (len pre) =
  Ok (v, len pre + len (encode_varint v)).
Proof.
  intros Hv. unfold read_varint.
  pose proof (encode_varint_length v ltac:(lia)) as Hlen.
  rewrite !len_app. pose proof (len_nonneg post).
  destruct (Z.geb_spec (len pre) (len pre + (len (encode_varint v) + len post))); [lia|].
  rewrite skipn_len_app, encode_varint_nonneg by lia.
  change 0 with (7 * 0) at 2.
  rewrite read_encode_loop.
  - do 2 f_equal. change (2 ^ (7 * 0)) with 1. lia.
  - lia.
  - exact Hv.
  - pose proof (Z.log2_nonneg v). lia.
  - change (2 ^ (7 * 0)) with 1. lia.
Qed.

(** ** Loops *)

Lemma while_lt_fuel_mono {S} n (body : Z -> S -> outcome (step S)) fuel :
  forall fuel' offset st,
  while_lt fuel n body offset st <> OutOfFuel -> (fuel <= fuel')%nat ->
  while_lt fuel' n body offset st = while_lt fuel n body offset st.
Proof.
  induction fuel as [|fuel IH]; intros fuel' offset st Hr Hle;
    destruct fuel' as [|fuel']; cbn [while_lt] in *;
    destruct (offset <? n); try reflexivity; try congruence; try lia.
  destruct (body offset st) as [[offset' st'|st']| |]; try reflexivity.
  apply IH; [assumption | lia].
Qed.

(** A loop whose body moves the offset forward returns or raises. *)
Lemma while_lt_returns {S} n (body : Z -> S -> outcome (step S)) :
  (forall offset st, body offset st <> OutOfFuel) ->
  (forall offset st offset' st', body offset st = Ok (Next offset' st') -> offset < offset') ->
  forall fuel offset st, n - offset <= Z.of_nat fuel ->
  while_lt fuel n body offset st <> OutOfFuel.
Proof.
  intros Hfuel Hprog. induction fuel as [|fuel IH]; intros offset st Hle;
    cbn [while_lt]; destruct (Z.ltb_spec offset n); try discriminate; try lia.
  specialize (Hfuel offset st). specialize (Hprog offset st).
  destruct (body offset st) as [[offset' st'|st']| |]; try discriminate; try congruence.
  apply IH. specialize (Hprog _ _ eq_refl). lia.
Qed.

Lemma bind_ok {A B} (m : outcome A) (k : A -> outcome B) b :
  bind m k = Ok b -> exists a, m = Ok a /\ k a = Ok b.
Proof. destruct m; cbn; intros H; try discriminate. eauto. Qed.

Lemma bind_not_fuel {A B} (m : outcome A) (k : A -> outcome B) :
  m <> OutOfFuel -> (forall a, m = Ok a -> k a <> OutOfFuel) -> bind m k <> OutOfFuel.
Proof. destruct m; cbn; intros H1 H2; try congruence. apply H2. reflexivity. Qed.

Lemma read_varint_from_not_fuel rest : forall result shift pos,
  read_varint_from rest result shift pos <> OutOfFuel.
Proof.
  induction rest as [|b rest IH]; intros result shift pos;
    cbn [read_varint_from]; [discriminate|].
  destruct (_ =? 0); [discriminate|]. destruct (_ >? 70); [discriminate|]. apply IH.
Qed.

Lemma read_varint_not_fuel data offset : read_varint data offset <> OutOfFuel.
Proof.
  unfold read_varint. destruct (offset >=? len data); [discriminate|].
  apply read_varint_from_not_fuel.
Qed.

Lemma skip_field_spec data offset wire :
  skip_field data offset wire <> OutOfFuel /\
  forall offset', skip_field data offset wire = Ok (Some offset') -> offset < offset'.
Proof.
  unfold skip_field.
  destruct (wire =? WIRE_VARINT); [|destruct (wire =? WIRE_64BIT);
    [|destruct (wire =? WIRE_LENGTH); [|destruct (wire =? WIRE_32BIT)]]].
  all: split; try discriminate; try (intros ? [= <-]; lia).
  all: try (apply bind_not_fuel; [apply read_varint_not_fuel|intros [? ?] _; discriminate]).
  all: intros offset' H; apply bind_ok in H; destruct H as ([v pos] & Hv & H);
    injection H as <-; apply read_varint_bounds in Hv; lia.
Qed.

(** Inversion of a successful run of a monadic body. *)
Ltac invert_ok :=
  repeat match goal with
  | H : bind _ _ = Ok _ |- _ =>
      apply bind_ok in H; destruct H as (? & ? & H); cbv beta in H
  | H : match ?x with (_, _) => _ end = Ok _ |- _ => destruct x
  | H : (if ?c then _ else _) = Ok _ |- _ => destruct c eqn:?
  | H : match ?x with Some _ => _ | None => _ end = Ok _ |- _ => destruct x eqn:?
  | H : Raise _ = Ok _ |- _ => discriminate H
  | H : Ok _ = Ok _ |- _ => injection H as H; subst
  | H : (_, _) = (_, _) |- _ => injection H as H; subst
  | H : Next _ _ = Next _ _ |- _ => injection H as H; subst
  | H : Break _ = Next _ _ |- _ => discriminate H
  | H : read_varint _ _ = Ok (_, _) |- _ => apply read_varint_bounds in H
  | H : skip_field _ _ _ = Ok (Some _) |- _ => apply skip_field_spec in H
  end.

Ltac not_fuel :=
  repeat match goal with
  | |- bind _ _ <> OutOfFuel => apply bind_not_fuel; [|intros ? ?]
  | |- match ?x with (_, _) => _ end <> OutOfFuel => destruct x
  | |- (if ?c then _ else _) <> OutOfFuel => destruct c
  | |- match ?x with Some _ => _ | None => _ end <> OutOfFuel => destruct x
  | |- Ok _ <> OutOfFuel => discriminate
  | |- Raise _ <> OutOfFuel => discriminate
  | |- read_varint _ _ <> OutOfFuel => apply read_varint_not_fuel
  | |- skip_field _ _ _ <> OutOfFuel => apply skip_field_spec
  end.

Lemma read_fixed32_ok data offset raw offset' :
  read_fixed32 data offset = Ok (raw, offset') -> offset' = offset + 4.
Proof. unfold read_fixed32. destruct (_ >? _); [discriminate|]. intros [= _ <-]. reflexivity. Qed.

Lemma read_fixed64_ok data offset raw offset' :
  read_fixed64 data offset = Ok (raw, offset') -> offset' = offset + 8.
Proof. unfold read_fixed64. destruct (_ >? _); [discriminate|]. intros [= _ <-]. reflexivity. Qed.

Lemma string_set_step_progress sub suboff arr suboff' arr' :
  string_set_step sub suboff arr = Ok (Next suboff' arr') -> suboff < suboff'.
Proof. unfold string_set_step. intros H. invert_ok; lia. Qed.

Lemma parse_string_set_returns sub : parse_string_set sub <> OutOfFuel.
Proof.
  apply while_lt_returns.
  - intros suboff arr. unfold string_set_step. not_fuel.
  - intros suboff arr suboff' arr'. apply string_set_step_progress.
  - unfold len. lia.
Qed.

Lemma read_value_field_progress data offset offset' field :
  read_value_field data offset = Ok (offset', field) -> offset < offset'.
Proof.
  unfold read_value_field. intros H. invert_ok;
    repeat match goal with
    | H : read_fixed32 _ _ = Ok _ |- _ => apply read_fixed32_ok in H
    | H : read_fixed64 _ _ = Ok _ |- _ => apply read_fixed64_ok in H
    end; lia.
Qed.

Lemma read_value_field_returns data offset : read_value_field data offset <> OutOfFuel.
Proof.
  unfold read_value_field, read_fixed32, read_fixed64. not_fuel.
  apply parse_string_set_returns.
Qed.

Lemma value_step_progress data offset found offset' found' :
  value_step data offset found = Ok (Next offset' found') -> offset < offset'.
Proof.
  unfold value_step. intros H. invert_ok;
    match goal with H : read_value_field _ _ = _ |- _ => apply read_value_field_progress in H end;
    lia.
Qed.

Lemma parse_value_message_returns data : parse_value_message data <> OutOfFuel.
Proof.
  unfold parse_value_message. not_fuel. apply while_lt_returns.
  - intros offset found. unfold value_step. not_fuel. apply read_value_field_returns.
  - intros offset found offset' found'. apply value_step_progress.
  - unfold len. lia.
Qed.

Lemma read_entry_field_progress entry eoff eoff' field :
  read_entry_field entry eoff = Ok (eoff', field) -> eoff < eoff'.
Proof. unfold read_entry_field. intros H. invert_ok; lia. Qed.

Lemma read_entry_field_returns entry eoff : read_entry_field entry eoff <> OutOfFuel.
Proof. unfold read_entry_field. not_fuel. Qed.

Lemma parse_map_entry_returns entry : parse_map_entry entry <> OutOfFuel.
Proof.
  apply while_lt_returns.
  - intros eoff st. unfold entry_step. not_fuel. apply read_entry_field_returns.
  - intros eoff st eoff' st'. unfold entry_step. intros H. invert_ok.
    match goal with H : read_entry_field _ _ = _ |- _ => apply read_entry_field_progress in H end.
    lia.
  - unfold len. lia.
Qed.

Lemma decode_map_entry_returns entry res : decode_map_entry entry res <> OutOfFuel.
Proof.
  unfold decode_map_entry. apply bind_not_fuel; [apply parse_map_entry_returns|].
  intros [[key|] [val_bytes|]] _; cbn [store_entry]; not_fuel.
  apply parse_value_message_returns.
Qed.

Lemma top_step_progress raw_bytes offset res offset' res' :
  top_step raw_bytes offset res = Ok (Next offset' res') -> offset < offset'.
Proof. unfold top_step. intros H. invert_ok; lia. Qed.

(** Decoding always returns a map or raises: the model's fuel is enough. *)
Theorem parse_preferences_pb_returns raw_bytes : parse_preferences_pb raw_bytes <> OutOfFuel.
Proof.
  apply while_lt_returns.
  - intros offset res. unfold top_step. not_fuel. apply decode_map_entry_returns.
  - intros offset res offset' res'. apply top_step_progress.
  - unfold len. lia.
Qed.

(** ** The fields of a Value slice and the value returned *)

Lemma value_loop_fields data fuel : forall offset found fs,
  value_fields_from fuel data offset = Ok fs ->
  while_lt fuel (len data) (value_step data) offset found = Ok (store_fields fs found).
Proof.
  induction fuel as [|fuel IH]; intros offset found fs H;
    cbn [value_fields_from while_lt] in *;
    destruct (offset <? len data); try discriminate.
  1, 3: injection H as <-; reflexivity.
  unfold value_step at 1.
  destruct (read_value_field data offset) as [[offset' field]| |]; try discriminate.
  cbn [bind] in *.
  destruct (value_fields_from fuel data offset') as [fs'| |] eqn:Hfs; try discriminate.
  cbn [bind] in H. injection H as <-.
  destruct field as [v|]; cbn [bind]; rewrite (IH _ _ fs') by assumption; reflexivity.
Qed.

Lemma value_loop_fields_inv data fuel : forall offset found found',
  while_lt fuel (len data) (value_step data) offset found = Ok found' ->
  exists fs, value_fields_from fuel data offset = Ok fs.
Proof.
  induction fuel as [|fuel IH]; intros offset found found' H;
    cbn [value_fields_from while_lt] in *;
    destruct (offset <? len data); try discriminate; eauto.
  unfold value_step at 1 in H.
  destruct (read_value_field data offset) as [[offset' field]| |]; try discriminate.
  cbn [bind] in *.
  destruct field as [v|]; cbn [bind] in H; apply IH in H; destruct H as [fs ->];
    cbn [bind]; eauto.
Qed.

(** A Value slice is scanned without error exactly when
    [parse_value_message] returns. *)
Lemma parse_value_message_scanned data v :
  parse_value_message data = Ok v -> exists fs, value_fields data = Ok fs.
Proof.
  unfold parse_value_message, value_fields. intros H.
  apply bind_ok in H. destruct H as (found & Hloop & _).
  eapply value_loop_fields_inv. exact Hloop.
Qed.

Lemma type_name_eqb_eq t u : type_name_eqb t u = true <-> t = u.
Proof. destruct t, u; cbn; split; congruence. Qed.

Lemma has_type_same t v w :
  same_type v w = true -> has_type t v = has_type t w.
Proof.
  unfold same_type, has_type.
  destruct (type_of v) as [tv|]; [|discriminate].
  destruct (type_of w) as [tw|]; [|discriminate].
  intros H. apply type_name_eqb_eq in H. subst. reflexivity.
Qed.

Lemma found_get_set t v found :
  found_get t (found_set v found) =
  if has_type t v then Some v else found_get t found.
Proof.
  unfold found_get. induction found as [|w found IH]; cbn [found_set find].
  - destruct (has_type t v); reflexivity.
  - destruct (same_type v w) eqn:Hs; cbn [find].
    + rewrite <- (has_type_same t _ _ Hs). destruct (has_type t v); reflexivity.
    + rewrite IH. destruct (has_type t w) eqn:Hw, (has_type t v) eqn:Hv; try reflexivity.
      exfalso. unfold same_type, has_type in *.
      destruct (type_of v) as [tv|]; [|discriminate].
      destruct (type_of w) as [tw|]; [|discriminate].
      destruct t, tv, tw; discriminate.
Qed.

Lemma find_app {A} (p : A -> bool) l1 l2 :
  find p (l1 ++ l2) = match find p l1 with Some x => Some x | None => find p l2 end.
Proof.
  induction l1 as [|x l1 IH]; cbn [app find]; [reflexivity|].
  destruct (p x); [reflexivity|exact IH].
Qed.

(** After the loop, [found[t]] is the last field of type [t]. *)
Lemma found_get_store t fs : forall found,
  found_get t (store_fields fs found) =
  match find (has_type t) (rev fs) with
  | Some v => Some v
  | None => found_get t found
  end.
Proof.
  unfold store_fields.
  induction fs as [|f fs IH]; intros found; cbn [fold_left rev]; [reflexivity|].
  rewrite IH, found_get_set, find_app.
  destruct (find (has_type t) (rev fs)); [reflexivity|].
  cbn [find]. destruct (has_type t f); reflexivity.
Qed.

Lemma find_rev_last {A} (p : A -> bool) pre f post :
  p f = true -> (forall g, In g post -> p g = false) ->
  find p (rev (pre ++ f :: post)) = Some f.
Proof.
  intros Hf Hpost. rewrite rev_app_distr. cbn [rev]. rewrite <- app_assoc, find_app.
  destruct (find p (rev post)) as [g|] eqn:Hg.
  - apply find_some in Hg. destruct Hg as [Hin Hp].
    rewrite Hpost in Hp by (apply in_rev; assumption). discriminate.
  - cbn [app find]. rewrite Hf. reflexivity.
Qed.

Lemma read_value_field_known data offset offset' v :
  read_value_field data offset = Ok (offset', Some v) -> type_of v <> None.
Proof. unfold read_value_field. intros H. invert_ok; discriminate. Qed.

Lemma value_fields_from_known data fuel : forall offset fs,
  value_fields_from fuel data offset = Ok fs -> Forall (fun f => type_of f <> None) fs.
Proof.
  induction fuel as [|fuel IH]; intros offset fs H; cbn [value_fields_from] in H;
    destruct (offset <? len data); try discriminate.
  1, 3: injection H as <-; constructor.
  destruct (read_value_field data offset) as [[offset' field]| |] eqn:Hf; try discriminate.
  cbn [bind] in H.
  destruct (value_fields_from fuel data offset') as [fs'| |] eqn:Hfs; try discriminate.
  cbn [bind] in H. injection H as <-. apply IH in Hfs.
  destruct field as [v|]; [|assumption].
  constructor; [|assumption]. eapply read_value_field_known; eassumption.
Qed.

Lemma parse_value_message_fields data fs :
  value_fields data = Ok fs ->
  parse_value_message data = Ok (first_found priority (store_fields fs [])).
Proof.
  unfold value_fields, parse_value_message. intros H.
  rewrite (value_loop_fields _ _ _ _ fs H). reflexivity.
Qed.

Lemma first_found_get ts found t :
  type_of (first_found ts found) = Some t ->
  found_get t found = Some (first_found ts found).
Proof.
  induction ts as [|t0 ts IH]; cbn [first_found]; [discriminate|].
  destruct (found_get t0 found) as [w|] eqn:Hw; [|exact IH].
  intros Ht. pose proof Hw as Hw'. apply find_some in Hw'. destruct Hw' as [_ Hty].
  unfold has_type in Hty. rewrite Ht in Hty. apply type_name_eqb_eq in Hty. subst t0.
  exact Hw.
Qed.

Ltac first_of_priority :=
  match goal with
  | |- context [match find (has_type ?t) ?l with Some _ => _ | None => _ end] =>
      let H := fresh "Hfind" in
      destruct (find (has_type t) l) eqn:H; cbv iota beta
  end.

(** C5.  When a Value slice is scanned without error, [parse_value_message]
    returns [Absent] if no known field was met, and otherwise one of the
    fields met whose variant comes first in the order Boolean, Float,
    Integer, Long, String, StringSet, Double among all the fields met. *)
Theorem C5_first_in_priority_order data fs :
  value_fields data = Ok fs ->
  exists v, parse_value_message data = Ok v /\
    (fs = [] -> v = Absent) /\
    (fs <> [] -> In v fs /\ forall f, In f fs -> (rank v <= rank f)%nat).
Proof.
  intros Hfs. rewrite (parse_value_message_fields _ _ Hfs).
  eexists. split; [reflexivity|]. split; [intros ->; reflexivity|].
  intros Hne. unfold priority. cbn [first_found]. rewrite !found_get_store.
  cbn [found_get find].
  assert (Hknown := value_fields_from_known _ _ _ _ Hfs).
  rewrite Forall_forall in Hknown.
  repeat first_of_priority.
  8: { destruct fs as [|f fs]; [congruence|]. exfalso.
       assert (Hin : In f (rev (f :: fs))) by (apply in_rev; rewrite rev_involutive; left; reflexivity).
       repeat match goal with
       | H : find _ _ = None |- _ => apply (fun H' => find_none _ _ H' f Hin) in H
       end.
       apply (Hknown f (or_introl eq_refl)). destruct f; cbn in *; congruence. }
  all: match goal with
       | H : find _ _ = Some ?p |- _ =>
           apply find_some in H; destruct H as [Hin Hty]; apply in_rev in Hin
       end;
       (split; [exact Hin|]); intros f Hf; apply in_rev in Hf;
       repeat match goal with
       | H : find _ _ = None |- _ => apply (fun H' => find_none _ _ H' f Hf) in H
       end;
       match goal with
       | H : has_type _ ?p = true |- _ => destruct p; try discriminate H
       end;
       destruct f; cbn [rank]; try lia; discriminate.
Qed.

(** C10.  When a Value slice is scanned without error, the value returned
    is the last of the fields met that carry its field number. *)
Theorem C10_last_occurrence data fs :
  value_fields data = Ok fs ->
  exists v, parse_value_message data = Ok v /\
    forall pre f post, fs = pre ++ f :: post ->
      field_number f = field_number v ->
      (forall g, In g post -> field_number g <> field_number v) ->
      v = f.
Proof.
  intros Hfs. rewrite (parse_value_message_fields _ _ Hfs).
  eexists. split; [reflexivity|].
  intros pre f post -> Hnum Hpost.
  remember (first_found priority (store_fields (pre ++ f :: post) [])) as v eqn:Hv.
  destruct (type_of v) as [t|] eqn:Ht.
  - assert (Hget : found_get t (store_fields (pre ++ f :: post) []) = Some v).
    { rewrite Hv. apply first_found_get. rewrite <- Hv. exact Ht. }
    rewrite found_get_store in Hget.
    rewrite (find_rev_last (has_type t) pre f post) in Hget.
    + congruence.
    + destruct v, f; try discriminate Hnum; cbn in Ht; try discriminate Ht;
        injection Ht as <-; reflexivity.
    + intros g Hg. specialize (Hpost g Hg).
      destruct v, g; cbn in Ht; try discriminate Ht; injection Ht as <-;
        try reflexivity; cbn [field_number] in Hpost; congruence.
  - destruct v, f; try discriminate; reflexivity.
Qed.

(** ** The fields of a MapEntry slice *)

Lemma entry_loop_fields entry fuel : forall eoff st fs,
  entry_fields_from fuel entry eoff = Ok fs ->
  while_lt fuel (len entry) (entry_step entry) eoff st = Ok (assign_fields fs st).
Proof.
  induction fuel as [|fuel IH]; intros eoff st fs H;
    cbn [entry_fields_from while_lt] in *;
    destruct (eoff <? len entry); try discriminate.
  1, 3: injection H as <-; reflexivity.
  unfold entry_step at 1.
  destruct (read_entry_field entry eoff) as [[eoff' field]| |]; try discriminate.
  cbn [bind] in *.
  destruct (entry_fields_from fuel entry eoff') as [fs'| |] eqn:Hfs; try discriminate.
  cbn [bind] in H. injection H as <-.
  destruct field as [f|]; rewrite (IH _ _ fs') by assumption; reflexivity.
Qed.

Lemma entry_loop_fields_inv entry fuel : forall eoff st st',
  while_lt fuel (len entry) (entry_step entry) eoff st = Ok st' ->
  exists fs, entry_fields_from fuel entry eoff = Ok fs.
Proof.
  induction fuel as [|fuel IH]; intros eoff st st' H;
    cbn [entry_fields_from while_lt] in *;
    destruct (eoff <? len entry); try discriminate; eauto.
  unfold entry_step at 1 in H.
  destruct (read_entry_field entry eoff) as [[eoff' field]| |]; try discriminate.
  cbn [bind] in *. apply IH in H. destruct H as [fs ->]. cbn [bind]. eauto.
Qed.

(** A MapEntry slice is scanned without error exactly when its loop
    ends without one. *)
Lemma parse_map_entry_scanned entry st :
  parse_map_entry entry = Ok st -> exists fs, entry_fields entry = Ok fs.
Proof. unfold parse_map_entry, entry_fields. apply entry_loop_fields_inv. Qed.

Lemma assign_fields_no_key fs : forall st,
  existsb is_key fs = false -> fst (assign_fields fs st) = fst st.
Proof.
  unfold assign_fields.
  induction fs as [|f fs IH]; intros st H; cbn [fold_left existsb] in *; [reflexivity|].
  apply orb_false_elim in H. destruct H as [Hf Hfs].
  rewrite IH by assumption. destruct f; [discriminate|reflexivity].
Qed.

Lemma assign_fields_no_value fs : forall st,
  existsb is_value fs = false -> snd (assign_fields fs st) = snd st.
Proof.
  unfold assign_fields.
  induction fs as [|f fs IH]; intros st H; cbn [fold_left existsb] in *; [reflexivity|].
  apply orb_false_elim in H. destruct H as [Hf Hfs].
  rewrite IH by assumption. destruct f; [reflexivity|discriminate].
Qed.

Lemma assign_fields_last_key pre key post st :
  existsb is_key post = false ->
  fst (assign_fields (pre ++ EKey key :: post) st) = Some key.
Proof.
  intros H. unfold assign_fields. rewrite fold_left_app. cbn [fold_left].
  fold (assign_fields post). rewrite (assign_fields_no_key post _ H). reflexivity.
Qed.

Lemma parse_map_entry_fields entry fs :
  entry_fields entry = Ok fs ->
  parse_map_entry entry = Ok (assign_fields fs (None, None)).
Proof. unfold entry_fields, parse_map_entry. apply entry_loop_fields. Qed.

(** C9.  When a MapEntry slice is scanned without error: with no key field
    the entry is dropped and the map is left as it was; with a key field and
    no value field the (last) key is stored with the value [Absent]. *)
Theorem C9_missing_key_or_value entry fs res :
  entry_fields entry = Ok fs ->
  (existsb is_key fs = false -> decode_map_entry entry res = Ok res) /\
  (forall pre key post,
     fs = pre ++ EKey key :: post -> existsb is_key post = false ->
     existsb is_value fs = false ->
     decode_map_entry entry res = Ok (dict_set key Absent res)).
Proof.
  intros Hfs. unfold decode_map_entry. rewrite (parse_map_entry_fields _ _ Hfs).
  cbn [bind]. split.
  - intros Hk. pose proof (assign_fields_no_key fs (None, None) Hk) as H.
    destruct (assign_fields fs (None, None)) as [k v]. cbn in H. subst k. reflexivity.
  - intros pre key post -> Hpost Hv.
    pose proof (assign_fields_last_key pre key post (None, None) Hpost) as H1.
    pose proof (assign_fields_no_value _ (None, None) Hv) as H2.
    destruct (assign_fields (pre ++ EKey key :: post) (None, None)) as [k v].
    cbn in H1, H2. subst k v. reflexivity.
Qed.

Lemma C9_missing_key_or_value_witness :
  decode_map_entry value_only [] = Ok [] /\
  decode_map_entry key_only [] = Ok [(key_k, Absent)].
Proof.
  split.
  - apply (proj1 (C9_missing_key_or_value value_only [EValue []] []
                    ltac:(vm_compute; reflexivity))).
    reflexivity.
  - apply (proj2 (C9_missing_key_or_value key_only [EKey key_k] []
                    ltac:(vm_compute; reflexivity)) [] key_k []); reflexivity.
Defined.

(** ** Varints: overflow, round trip and range *)

Lemma slice_in_range data lo hi :
  0 <= lo <= hi -> hi <= len data ->
  slice data lo hi = firstn (Z.to_nat (hi - lo)) (skipn (Z.to_nat lo) data).
Proof.
  intros H1 H2. unfold slice.
  rewrite !Z.max_l, !Z.min_l by lia. reflexivity.
Qed.

(** C6 (amended).  A varint read fails with VarintOverflow when the eleven
    bytes at the offset all carry the continuation bit, and a read that
    succeeds has consumed at most eleven bytes. *)
Theorem C6_varint_overflow data offset :
  (0 <= offset -> offset + 11 <= len data ->
   Forall (fun b => 128 <= byte.unsigned b) (slice data offset (offset + 11)) ->
   fails_with (read_varint data offset) VarintOverflow) /\
  (forall v pos, read_varint data offset = Ok (v, pos) -> pos - offset <= 11).
Proof.
  split.
  - intros Hoff Hlen Hall. exists VarintTooBig. split; [|reflexivity].
    unfold read_varint. destruct (Z.geb_spec offset (len data)); [lia|].
    rewrite slice_in_range in Hall by lia.
    replace (offset + 11 - offset) with (11 - 0) in Hall by lia.
    apply (read_varint_from_overflow _ 0 0); [lia | | exact Hall].
    rewrite length_skipn. unfold len in *. lia.
  - intros v pos H. apply read_varint_bounds in H. lia.
Qed.

Lemma C6_varint_overflow_witness :
  fails_with (read_varint eleven_continued 0) VarintOverflow /\ 11 - 0 <= 11.
Proof.
  split.
  - apply (proj1 (C6_varint_overflow eleven_continued 0)).
    + lia.
    + vm_compute. discriminate.
    + vm_compute. repeat constructor; discriminate.
  - apply (proj2 (C6_varint_overflow eleven_groups 0) 0 11).
    vm_compute. reflexivity.
Defined.

(** C6, as stated, fails: eleven bytes are read with success. *)
Lemma C6_eleven_bytes_read :
  read_varint eleven_groups 0 = Ok (0, 11) /\ ~ (11 - 0 <= 10).
Proof. split; [vm_compute; reflexivity|lia]. Qed.

(** C7.  A 64-bit unsigned value written by [encode_varint] is read back by
    [read_varint], which stops at the end of the encoding. *)
Theorem C7_varint_round_trip v :
  0 <= v < 2 ^ 64 ->
  read_varint (encode_varint v) 0 = Ok (v, len (encode_varint v)).
Proof.
  intros Hv.
  pose proof (read_varint_encode [] v []) as H.
  rewrite app_nil_r in H. cbn [app] in H. apply H.
  split; [lia|]. apply Z.lt_le_trans with (2 ^ 64); [lia|].
  apply Z.pow_le_mono_r; lia.
Qed.

Lemma C7_varint_round_trip_witness :
  read_varint (encode_varint (2 ^ 64 - 1)) 0 = Ok (2 ^ 64 - 1, len (encode_varint (2 ^ 64 - 1))).
Proof. apply (C7_varint_round_trip (2 ^ 64 - 1)). vm_compute. split; [discriminate|reflexivity]. Defined.

(** C8 (amended).  The value of a varint read with success is a
    non-negative integer below [2 ^ 77]. *)
Theorem C8_varint_value_bound data offset v pos :
  read_varint data offset = Ok (v, pos) -> 0 <= v < 2 ^ 77.
Proof. intros H. apply read_varint_bounds in H. lia. Qed.

Lemma C8_varint_value_bound_witness : 0 <= 2 ^ 70 - 1 < 2 ^ 77.
Proof. apply (C8_varint_value_bound seventy_ones 0 (2 ^ 70 - 1) 10). vm_compute. reflexivity. Defined.

Example read_varint_largest :
  read_varint
    (bytes_of [0xff; 0xff; 0xff; 0xff; 0xff; 0xff; 0xff; 0xff; 0xff; 0xff; 0x7f]) 0
  = Ok (2 ^ 77 - 1, 11).
Proof. vm_compute. reflexivity. Qed.

(** C8, as stated, fails: ten bytes carry seventy bits. *)
Lemma C8_value_above_64_bits :
  read_varint seventy_ones 0 = Ok (2 ^ 70 - 1, 10) /\ ~ (2 ^ 70 - 1 < 2 ^ 64).
Proof. split; [vm_compute; reflexivity|]. vm_compute. discriminate. Qed.

(** ** The Value message: priority, repeated fields and Integers *)

Lemma C5_first_in_priority_order_witness :
  exists v, parse_value_message three_fields = Ok v /\
    In v [Integer 5; Boolean true; Integer 7] /\
    forall f, In f [Integer 5; Boolean true; Integer 7] -> (rank v <= rank f)%nat.
Proof.
  destruct (C5_first_in_priority_order three_fields [Integer 5; Boolean true; Integer 7])
    as (v & Hv & _ & H).
  - vm_compute. reflexivity.
  - exists v. split; [exact Hv|]. apply H. discriminate.
Defined.

Lemma C10_last_occurrence_witness :
  exists v, parse_value_message repeated_field = Ok v /\ v = Integer 7.
Proof.
  destruct (C10_last_occurrence repeated_field [Integer 5; Integer 7]) as (v & Hv & H).
  - vm_compute. reflexivity.
  - exists v. split; [exact Hv|].
    assert (Hval : v = Integer 7) by (vm_compute in Hv; congruence).
    apply (H [Integer 5] (Integer 7) []).
    + reflexivity.
    + rewrite Hval. reflexivity.
    + intros g [].
Defined.

Example three_fields_value : parse_value_message three_fields = Ok (Boolean true).
Proof. vm_compute. reflexivity. Qed.

Example repeated_field_value : parse_value_message repeated_field = Ok (Integer 7).
Proof. vm_compute. reflexivity. Qed.

Example no_known_field :
  parse_value_message (bytes_of [0x40; 0x01]) = Ok Absent.
Proof. vm_compute. reflexivity. Qed.

(** C3.  The varint of [2 ^ 64 - 1] in field 3, which is what
    [encode_value_message] writes for the Integer [-1], is decoded as
    [2 ^ 64 - 1 - 2 ^ 32]; the low 32 bits read as two's complement are
    [-1]. *)
Theorem C3_integer_wide_varint :
  parse_value_message integer_minus_one = Ok (Integer 18446744069414584319) /\
  twos_complement 32 (2 ^ 64 - 1) = -1 /\
  encode_value_message (Integer (-1)) = Ok integer_minus_one.
Proof. repeat split; vm_compute; reflexivity. Qed.

(** Below [2 ^ 32] the Integer decoded from field 3 is the two's-complement
    reading of the varint. *)
Lemma integer_below_2_32 v :
  0 <= v < 2 ^ 32 ->
  (if v <=? 0x7fffffff then v else v - Z.shiftl 1 32) = twos_complement 32 v.
Proof.
  intros H. unfold twos_complement. rewrite Z.mod_small by lia.
  change (Z.shiftl 1 32) with (2 ^ 32). change (2 ^ (32 - 1)) with 2147483648.
  change (2 ^ 32) with 4294967296 in *.
  destruct (Z.leb_spec v 0x7fffffff), (Z.ltb_spec v 2147483648); lia.
Qed.

(** X9.  For a varint below [2 ^ 32] the Integer decoded from field 3 is
    the two's-complement reading of its 32 bits. *)
Lemma integer_field_below_2_32 v post :
  0 <= v < 2 ^ 32 ->
  read_value_field (bytes_of [0x18] ++ encode_varint v ++ post) 0 =
  Ok (1 + len (encode_varint v), Some (Integer (twos_complement 32 v))).
Proof.
  intros Hv. unfold read_value_field.
  change (read_varint (bytes_of [0x18] ++ encode_varint v ++ post) 0)
    with (Ok (A := Z * Z) (0x18, 1)).
  cbn [bind]. change (len (A := byte) [Byte.x18]) with 1.
  change 1 with (len (bytes_of [0x18])) at 3.
  rewrite read_varint_encode.
  - cbn [bind]. rewrite integer_below_2_32 by assumption. reflexivity.
  - split; [lia|]. apply Z.lt_le_trans with (2 ^ 32); [lia|].
    apply Z.pow_le_mono_r; lia.
Qed.

Example integer_sign_boundary :
  parse_value_message integer_max = Ok (Integer 2147483647) /\
  parse_value_message integer_min = Ok (Integer (-2147483648)).
Proof. split; vm_compute; reflexivity. Qed.

(** ** Truncated payloads and unknown wire types *)

(** C2.  A MapEntry slice, a key, a value slice and a StringSet element
    that are declared longer than the bytes left are cut to the bytes left
    and decoded without an error. *)
Theorem C2_short_payload_accepted :
  parse_preferences_pb short_entry = Ok [(key_k, Absent)] /\
  parse_preferences_pb short_key = Ok [(key_k, Absent)] /\
  parse_preferences_pb short_value = Ok [(key_k, Boolean true)] /\
  parse_value_message short_set_element = Ok (StringSet [[0x61]]).
Proof. repeat split; vm_compute; reflexivity. Qed.

(** The two bounds checks of the source: a String or a StringSet declared
    longer than the bytes left fails with TruncatedData. *)
Lemma string_payload_checked data offset tag offset1 ln offset2 :
  read_varint data offset = Ok (tag, offset1) ->
  Z.land tag 0x7 = WIRE_LENGTH -> Z.shiftr tag 3 = 5 \/ Z.shiftr tag 3 = 6 ->
  read_varint data offset1 = Ok (ln, offset2) ->
  offset2 + ln > len data ->
  fails_with (read_value_field data offset) TruncatedData.
Proof.
  intros Htag Hwire Hnum Hln Hshort. unfold read_value_field, fails_with.
  rewrite Htag. cbn [bind]. rewrite Hwire.
  destruct (Z.gtb_spec (offset2 + ln) (len data)); [|lia].
  destruct Hnum as [-> | ->]; cbn; rewrite Hln; cbn [bind];
    destruct (Z.gtb_spec (offset2 + ln) (len data)); try lia; eauto.
Qed.

Example short_string_raises :
  parse_value_message short_string = Raise TruncatedString /\
  parse_value_message short_string_set = Raise TruncatedStringSet.
Proof. split; vm_compute; reflexivity. Qed.

(** A buffer that ends inside a varint fails with TruncatedData. *)
Lemma read_varint_from_truncated rest : forall result k pos,
  0 <= k -> Z.of_nat (length rest) <= 10 - k ->
  Forall (fun b => 128 <= byte.unsigned b) rest ->
  read_varint_from rest result (7 * k) pos = Raise EndOfVarint.
Proof.
  induction rest as [|b rest IH]; intros result k pos Hk Hlen Hall; [reflexivity|].
  rewrite read_varint_from_cons. inversion Hall as [|? ? Hb Hrest]; subst.
  cbn [length] in Hlen.
  destruct (Z.ltb_spec (byte.unsigned b) 128); [lia|].
  destruct (Z.gtb_spec (7 * k + 7) 70); [lia|].
  replace (7 * k + 7) with (7 * (k + 1)) by lia.
  apply IH; [lia | lia | exact Hrest].
Qed.

(** X8.  A buffer that ends, ten bytes or fewer after the offset, with
    every byte carrying the continuation bit fails with TruncatedData; so
    does a read at the end of the buffer. *)
Lemma read_varint_truncated data offset :
  0 <= offset -> len data - offset <= 10 ->
  Forall (fun b => 128 <= byte.unsigned b) (skipn (Z.to_nat offset) data) ->
  fails_with (read_varint data offset) TruncatedData.
Proof.
  intros Hoff Hlen Hall. exists EndOfVarint. split; [|reflexivity].
  unfold read_varint. destruct (offset >=? len data); [reflexivity|].
  apply (read_varint_from_truncated _ 0 0); [lia | | exact Hall].
  rewrite length_skipn. unfold len in *. lia.
Qed.

(** C4.  In the StringSet submessage a field with wire type 3 ends the
    loop: the set read so far is returned and decoding goes on. *)
Theorem C4_group_in_string_set_accepted :
  parse_preferences_pb group_in_string_set = Ok [(key_k, StringSet [])].
Proof. vm_compute. reflexivity. Qed.

Lemma supported_wire_false wire :
  supported_wire wire = false ->
  (wire =? WIRE_VARINT) = false /\ (wire =? WIRE_64BIT) = false /\
  (wire =? WIRE_LENGTH) = false /\ (wire =? WIRE_32BIT) = false.
Proof.
  unfold supported_wire. intros H.
  repeat (apply orb_false_elim in H; destruct H as [H ?]). auto.
Qed.

Lemma skip_field_unsupported data offset wire :
  supported_wire wire = false -> skip_field data offset wire = Ok None.
Proof.
  intros H. apply supported_wire_false in H. destruct H as (H0 & H1 & H2 & H5).
  unfold skip_field. rewrite H0, H1, H2, H5. reflexivity.
Qed.

(** At the top level, in a MapEntry and in a Value, a field with a wire
    type outside the four known ones fails with UnsupportedWireType. *)
Lemma top_step_unsupported raw_bytes offset res tag offset' :
  read_varint raw_bytes offset = Ok (tag, offset') ->
  supported_wire (Z.land tag 0x7) = false ->
  fails_with (top_step raw_bytes offset res) UnsupportedWireType.
Proof.
  intros Htag Hw. exists UnknownWireTop. split; [|reflexivity].
  unfold top_step. rewrite Htag. cbn [bind].
  rewrite (skip_field_unsupported _ _ _ Hw).
  apply supported_wire_false in Hw. destruct Hw as (H0 & H1 & H2 & H5).
  rewrite H2, andb_false_r. reflexivity.
Qed.

Lemma read_entry_field_unsupported entry eoff etag eoff' :
  read_varint entry eoff = Ok (etag, eoff') ->
  supported_wire (Z.land etag 0x7) = false ->
  fails_with (read_entry_field entry eoff) UnsupportedWireType.
Proof.
  intros Htag Hw. exists UnknownWireEntry. split; [|reflexivity].
  unfold read_entry_field. rewrite Htag. cbn [bind].
  rewrite (skip_field_unsupported _ _ _ Hw).
  apply supported_wire_false in Hw. destruct Hw as (H0 & H1 & H2 & H5).
  rewrite H2, !andb_false_r. reflexivity.
Qed.

Lemma read_value_field_unsupported data offset tag offset' :
  read_varint data offset = Ok (tag, offset') ->
  supported_wire (Z.land tag 0x7) = false ->
  fails_with (read_value_field data offset) UnsupportedWireType.
Proof.
  intros Htag Hw. exists UnknownWireValue. split; [|reflexivity].
  unfold read_value_field. rewrite Htag. cbn [bind].
  rewrite (skip_field_unsupported _ _ _ Hw).
  apply supported_wire_false in Hw. destruct Hw as (H0 & H1 & H2 & H5).
  rewrite H0, H1, H2, H5, !andb_false_r. reflexivity.
Qed.

(** In the StringSet submessage it ends the loop instead. *)
Lemma string_set_step_unsupported sub suboff arr stag suboff' :
  read_varint sub suboff = Ok (stag, suboff') ->
  supported_wire (Z.land stag 0x7) = false ->
  string_set_step sub suboff arr = Ok (Break arr).
Proof.
  intros Htag Hw. unfold string_set_step. rewrite Htag. cbn [bind].
  rewrite (skip_field_unsupported _ _ _ Hw).
  apply supported_wire_false in Hw. destruct Hw as (H0 & H1 & H2 & H5).
  rewrite H2, andb_false_r. reflexivity.
Qed.

Example group_at_other_levels :
  parse_preferences_pb group_at_top = Raise UnknownWireTop /\
  parse_preferences_pb group_in_entry = Raise UnknownWireEntry /\
  parse_preferences_pb group_in_value = Raise UnknownWireValue.
Proof. repeat split; vm_compute; reflexivity. Qed.

(** ** Strings *)




(** ** Reading back fixed-width integers *)

Lemma slice_app_mid (pre mid post : bytes) :
  slice (pre ++ mid ++ post) (len pre) (len pre + len mid) = mid.
Proof.
  pose proof (len_nonneg pre). pose proof (len_nonneg mid). pose proof (len_nonneg post).
  rewrite slice_in_range by (rewrite ?len_app; lia).
  rewrite skipn_len_app.
  replace (len pre + len mid - len pre) with (len mid) by lia.
  unfold len. rewrite Nat2Z.id, firstn_app, Nat.sub_diag, firstn_all. cbn [firstn].
  apply app_nil_r.
Qed.



(** ** Reading back what the encoders write *)

Lemma read_varint_at data pre v post offset :
  data = pre ++ encode_varint v ++ post -> offset = len pre -> 0 <= v < 2 ^ 77 ->
  read_varint data offset = Ok (v, offset + len (encode_varint v)).
Proof. intros -> -> Hv. apply read_varint_encode. exact Hv. Qed.




(** Closed tests, such as those on a tag the encoder wrote, are evaluated. *)
Ltac eval_tests :=
  repeat match goal with
  | |- context [if ?c then _ else _] =>
      let c' := eval vm_compute in c in
      match c' with
      | true => change c with true
      | false => change c with false
      end; cbv iota
  end.

Ltac frame := rewrite ?app_nil_r, <- ?app_assoc; reflexivity.

Lemma pow_77_of b : 0 <= b <= 77 -> forall x, x < 2 ^ b -> x < 2 ^ 77.
Proof.
  intros Hb x Hx. apply Z.lt_le_trans with (2 ^ b); [exact Hx|].
  apply Z.pow_le_mono_r; lia.
Qed.


Lemma small_77 x : 0 <= x < 2 ^ 63 -> 0 <= x < 2 ^ 77.
Proof. intros H. split; [lia|]. apply (pow_77_of 63); lia. Qed.


Lemma len_encode_fixed32 bits : len (encode_fixed32 bits) = 4.
Proof. unfold encode_fixed32, len. rewrite length_le_split. reflexivity. Qed.

Lemma len_encode_fixed64 bits : len (encode_fixed64 bits) = 8.
Proof. unfold encode_fixed64, len. rewrite length_le_split. reflexivity. Qed.






Lemma while_lt_next {S} fuel n (body : Z -> S -> outcome (step S)) offset st offset' st' :
  offset < n -> body offset st = Ok (Next offset' st') ->
  while_lt (Datatypes.S fuel) n body offset st = while_lt fuel n body offset' st'.
Proof.
  intros H Hb. cbn [while_lt]. destruct (Z.ltb_spec offset n); [|lia]. rewrite Hb. reflexivity.
Qed.






(** ** Reading back a MapEntry and a map *)

Lemma str_eqb_eq s t : str_eqb s t = true <-> s = t.
Proof.
  revert t. induction s as [|c s IH]; intros [|d t]; cbn [str_eqb];
    try (split; [discriminate|congruence]); [split; reflexivity|].
  rewrite andb_true_iff, Z.eqb_eq, IH. split; [intros [-> ->]; reflexivity|].
  intros [= -> ->]. split; reflexivity.
Qed.

Lemma dict_set_new {V} key (v : V) d :
  ~ In key (map fst d) -> dict_set key v d = d ++ [(key, v)].
Proof.
  induction d as [|[k w] d IH]; cbn [dict_set map fst In app]; intros H; [reflexivity|].
  destruct (str_eqb k key) eqn:E.
  - apply str_eqb_eq in E. tauto.
  - rewrite IH by tauto. reflexivity.
Qed.





(** C1.  The map with the one key ["k"] and the Integer [-1] is encoded
    and decoded to a map with the Integer [2 ^ 64 - 1 - 2 ^ 32]. *)
Theorem C1_negative_integer_round_trip :
  (raw_bytes <- encode_preferences_dict [(key_k, Integer (-1))] ;;
   parse_preferences_pb raw_bytes) = Ok [(key_k, Integer 18446744069414584319)].
Proof. vm_compute. reflexivity. Qed.

(** ** Fixtures of the specification *)

Example encode_varint_zero : encode_varint 0 = bytes_of [0x00].
Proof. vm_compute. reflexivity. Qed.

Example encode_varint_max :
  encode_varint (2 ^ 64 - 1)
  = bytes_of [0xff; 0xff; 0xff; 0xff; 0xff; 0xff; 0xff; 0xff; 0xff; 0x01].
Proof. vm_compute. reflexivity. Qed.

Example string_set_round_trip :
  (vbytes <- encode_value_message (StringSet [[0x61]; [0x62]; [0x61]]) ;;
   parse_value_message vbytes) = Ok (StringSet [[0x61]; [0x62]; [0x61]]).
Proof. vm_compute. reflexivity. Qed.

Example duplicate_key_last_wins :
  parse_preferences_pb
    (bytes_of [0x0a; 0x07; 0x0a; 0x01; 0x6b; 0x12; 0x02; 0x08; 0x01;
               0x0a; 0x07; 0x0a; 0x01; 0x6b; 0x12; 0x02; 0x18; 0x05])
  = Ok [(key_k, Integer 5)].
Proof. vm_compute. reflexivity. Qed.

Example unknown_top_level_field_skipped :
  parse_preferences_pb
    (bytes_of [0x0a; 0x07; 0x0a; 0x01; 0x6b; 0x12; 0x02; 0x08; 0x01; 0x10; 0x2a])
  = Ok [(key_k, Boolean true)].
Proof. vm_compute. reflexivity. Qed.

(** * More properties of the code *)

(** ** Fixed-width integers and varints, any value and any place *)

(** X1. *)
Theorem fixed32_round_trip pre value post :
  read_fixed32 (pre ++ encode_fixed32 value ++ post) (len pre)
  = Ok (value mod 2 ^ 32, len pre + 4).
Proof.
  unfold read_fixed32. pose proof (len_nonneg post).
  rewrite !len_app, len_encode_fixed32.
  destruct (Z.gtb_spec (len pre + 4) (len pre + (4 + len post))); [lia|].
  rewrite <- (len_encode_fixed32 value) at 1. rewrite slice_app_mid. unfold encode_fixed32.
  rewrite le_combine_split. change 0xffffffff with (Z.ones 32).
  rewrite Z.land_ones by lia. change (Z.of_nat 4 * 8) with 32.
  rewrite Z.mod_mod by lia. reflexivity.
Qed.

(** X2. *)
Theorem fixed64_round_trip pre value post :
  read_fixed64 (pre ++ encode_fixed64 value ++ post) (len pre)
  = Ok (value mod 2 ^ 64, len pre + 8).
Proof.
  unfold read_fixed64. pose proof (len_nonneg post).
  rewrite !len_app, len_encode_fixed64.
  destruct (Z.gtb_spec (len pre + 8) (len pre + (8 + len post))); [lia|].
  rewrite <- (len_encode_fixed64 value) at 1. rewrite slice_app_mid. unfold encode_fixed64.
  rewrite le_combine_split. change 0xffffffffffffffff with (Z.ones 64).
  rewrite Z.land_ones by lia. change (Z.of_nat 8 * 8) with 64.
  rewrite Z.mod_mod by lia. reflexivity.
Qed.

Lemma len_slice data lo hi :
  0 <= lo <= hi -> hi <= len data -> len (slice data lo hi) = hi - lo.
Proof.
  intros H1 H2. rewrite slice_in_range by lia. unfold len in *.
  rewrite length_firstn, length_skipn. lia.
Qed.

(** X3. *)
Theorem read_fixed_range data offset raw offset' :
  0 <= offset ->
  (read_fixed32 data offset = Ok (raw, offset') ->
   offset' = offset + 4 /\ offset' <= len data /\ 0 <= raw < 2 ^ 32) /\
  (read_fixed64 data offset = Ok (raw, offset') ->
   offset' = offset + 8 /\ offset' <= len data /\ 0 <= raw < 2 ^ 64).
Proof.
  intros Hoff. unfold read_fixed32, read_fixed64. split.
  - destruct (Z.gtb_spec (offset + 4) (len data)); [discriminate|].
    intros [= <- <-]. split; [reflexivity|]. split; [lia|].
    pose proof (le_combine_bound (slice data offset (offset + 4))) as Hb.
    pose proof (len_slice data offset (offset + 4) ltac:(lia) ltac:(lia)) as Hl.
    unfold len in Hl. replace (8 * Z.of_nat (length (slice data offset (offset + 4))))
      with 32 in Hb by lia. exact Hb.
  - destruct (Z.gtb_spec (offset + 8) (len data)); [discriminate|].
    intros [= <- <-]. split; [reflexivity|]. split; [lia|].
    pose proof (le_combine_bound (slice data offset (offset + 8))) as Hb.
    pose proof (len_slice data offset (offset + 8) ltac:(lia) ltac:(lia)) as Hl.
    unfold len in Hl. replace (8 * Z.of_nat (length (slice data offset (offset + 8))))
      with 64 in Hb by lia. exact Hb.
Qed.

(** X4. *)
Theorem encode_varint_wraps_negative value :
  value < 0 -> encode_varint value = encode_varint (value mod 2 ^ 64).
Proof.
  intros H. unfold encode_varint.
  pose proof (Z.mod_pos_bound value (2 ^ 64) ltac:(lia)) as Hm.
  destruct (Z.ltb_spec value 0); [|lia].
  destruct (Z.ltb_spec (value mod 2 ^ 64) 0); [lia|].
  change (Z.shiftl 1 64 - 1) with (Z.ones 64). rewrite Z.land_ones by lia. reflexivity.
Qed.

Lemma encode_varint_loop_length_iff fuel : forall v n,
  0 <= v -> Z.log2 v <= Z.of_nat fuel -> 1 <= n ->
  (len (encode_varint_loop fuel v) <= n <-> v < 2 ^ (7 * n)).
Proof.
  induction fuel as [|fuel IH]; intros v n Hv Hlog Hn;
    rewrite encode_varint_loop_eq;
    destruct (Z.eqb_spec (v / 128) 0) as [Hz|Hnz].
  1, 3: assert (v < 128) by (Z.div_mod_to_equations; lia);
        assert (2 ^ (7 * 1) <= 2 ^ (7 * n)) by (apply Z.pow_le_mono_r; lia);
        change (2 ^ (7 * 1)) with 128 in *; unfold len; cbn [length]; lia.
  - assert (128 <= v) by (Z.div_mod_to_equations; lia).
    pose proof (log2_div128 v ltac:(lia)). pose proof (Z.log2_nonneg (v / 128)). lia.
  - assert (Hv128 : 128 <= v) by (Z.div_mod_to_equations; lia).
    pose proof (log2_div128 v Hv128) as Hl.
    assert (Hlen : len (byte.of_Z (v mod 128 + 128) :: encode_varint_loop fuel (v / 128))
                   = 1 + len (encode_varint_loop fuel (v / 128)))
      by (unfold len; cbn [length]; lia).
    rewrite Hlen.
    pose proof (encode_varint_loop_length fuel (v / 128)
                  ltac:(apply Z.div_pos; lia) ltac:(lia)) as Hone.
    destruct (Z.eq_dec n 1) as [->|Hn1].
    + change (2 ^ (7 * 1)) with 128. lia.
    + specialize (IH (v / 128) (n - 1) ltac:(apply Z.div_pos; lia) ltac:(lia) ltac:(lia)).
      replace (7 * n) with (7 * (n - 1 + 1)) by lia. rewrite pow7_succ by lia.
      assert (Hdiv : v / 128 < 2 ^ (7 * (n - 1)) <-> v < 128 * 2 ^ (7 * (n - 1))).
      { generalize (2 ^ (7 * (n - 1))). intros bound.
        Z.div_mod_to_equations. lia. }
      lia.
Qed.

(** X5. *)
Theorem encode_varint_length_iff value n :
  0 <= value -> 1 <= n ->
  (len (encode_varint value) <= n <-> value < 2 ^ (7 * n)).
Proof.
  intros Hv Hn. rewrite encode_varint_nonneg by assumption.
  apply encode_varint_loop_length_iff; [assumption| |assumption].
  pose proof (Z.log2_nonneg value). lia.
Qed.

Lemma encode_varint_loop_shape fuel : forall v,
  0 <= v -> Z.log2 v <= Z.of_nat fuel ->
  exists init last, encode_varint_loop fuel v = init ++ [last] /\
    Forall (fun b => 128 <= byte.unsigned b) init /\ byte.unsigned last < 128.
Proof.
  induction fuel as [|fuel IH]; intros v Hv Hlog;
    rewrite encode_varint_loop_eq;
    pose proof (Z.mod_pos_bound v 128 ltac:(lia)) as Hm;
    destruct (Z.eqb_spec (v / 128) 0) as [Hz|Hnz].
  1, 3: exists [], (byte.of_Z (v mod 128)); split; [reflexivity|]; split; [constructor|];
        rewrite unsigned_of_Z_small by lia; lia.
  - assert (128 <= v) by (Z.div_mod_to_equations; lia).
    pose proof (log2_div128 v ltac:(lia)). pose proof (Z.log2_nonneg (v / 128)). lia.
  - assert (Hv128 : 128 <= v) by (Z.div_mod_to_equations; lia).
    pose proof (log2_div128 v Hv128) as Hl.
    destruct (IH (v / 128) ltac:(apply Z.div_pos; lia) ltac:(lia))
      as (init & last & Heq & Hinit & Hlast).
    exists (byte.of_Z (v mod 128 + 128) :: init), last. rewrite Heq.
    split; [reflexivity|]. split; [|exact Hlast].
    constructor; [|exact Hinit]. rewrite unsigned_of_Z_small by lia. lia.
Qed.

(** X6. *)
Theorem encode_varint_continuation value :
  exists init last, encode_varint value = init ++ [last] /\
    Forall (fun b => 128 <= byte.unsigned b) init /\ byte.unsigned last < 128.
Proof.
  unfold encode_varint.
  set (v := if value <? 0 then Z.land value (Z.shiftl 1 64 - 1) else value).
  assert (Hv : 0 <= v).
  { unfold v. destruct (Z.ltb_spec value 0); [|assumption].
    change (Z.shiftl 1 64 - 1) with (Z.ones 64). rewrite Z.land_ones by lia.
    apply Z.mod_pos_bound. lia. }
  apply encode_varint_loop_shape; [exact Hv|].
  pose proof (Z.log2_nonneg v). lia.
Qed.

Lemma read_varint_from_app rest post : forall result shift pos x,
  read_varint_from rest result shift pos = Ok x ->
  read_varint_from (rest ++ post) result shift pos = Ok x.
Proof.
  induction rest as [|b rest IH]; intros result shift pos x H; [discriminate H|].
  cbn [app]. rewrite read_varint_from_cons in *.
  destruct (byte.unsigned b <? 128); [exact H|].
  destruct (shift + 7 >? 70); [discriminate H|]. apply IH. exact H.
Qed.

Lemma read_varint_from_shift rest d : forall result shift pos,
  read_varint_from rest result shift (d + pos)
  = '(v, pos') <- read_varint_from rest result shift pos ;; Ok (v, d + pos').
Proof.
  induction rest as [|b rest IH]; intros result shift pos; [reflexivity|].
  rewrite !read_varint_from_cons.
  destruct (byte.unsigned b <? 128); [cbn [bind]; do 2 f_equal; lia|].
  destruct (shift + 7 >? 70); [reflexivity|].
  replace (d + pos + 1) with (d + (pos + 1)) by lia. apply IH.
Qed.

Lemma skipn_app_len (pre data : bytes) offset :
  0 <= offset ->
  skipn (Z.to_nat (len pre + offset)) (pre ++ data) = skipn (Z.to_nat offset) data.
Proof.
  intros H. unfold len. rewrite skipn_app.
  replace (Z.to_nat (Z.of_nat (length pre) + offset) - length pre)%nat
    with (Z.to_nat offset) by lia.
  rewrite skipn_all2 by lia. reflexivity.
Qed.

(** Reading a varint does not depend on where the buffer starts. *)
Lemma read_varint_shift pre data offset :
  0 <= offset ->
  read_varint (pre ++ data) (len pre + offset)
  = '(v, pos) <- read_varint data offset ;; Ok (v, len pre + pos).
Proof.
  intros H. unfold read_varint. rewrite len_app.
  destruct (Z.geb_spec offset (len data)), (Z.geb_spec (len pre + offset) (len pre + len data));
    try lia; [reflexivity|].
  rewrite skipn_app_len by assumption. apply read_varint_from_shift.
Qed.

(** X7. *)
Theorem read_varint_framed pre data post offset v pos :
  0 <= offset -> read_varint data offset = Ok (v, pos) ->
  read_varint (pre ++ data ++ post) (len pre + offset) = Ok (v, len pre + pos).
Proof.
  intros Hoff H. rewrite read_varint_shift by assumption.
  assert (Happ : read_varint (data ++ post) offset = Ok (v, pos)).
  { unfold read_varint in *. rewrite len_app. pose proof (len_nonneg post).
    destruct (Z.geb_spec offset (len data)); [discriminate H|].
    destruct (Z.geb_spec offset (len data + len post)); [lia|].
    rewrite skipn_app.
    replace (Z.to_nat offset - length data)%nat with 0%nat by (unfold len in *; lia).
    cbn [skipn]. apply read_varint_from_app. exact H. }
  rewrite Happ. reflexivity.
Qed.

Lemma slice_shift (pre data : bytes) lo hi :
  0 <= lo -> 0 <= hi ->
  slice (pre ++ data) (len pre + lo) (len pre + hi) = slice data lo hi.
Proof.
  intros Hlo Hhi. unfold slice. rewrite len_app.
  pose proof (len_nonneg pre). pose proof (len_nonneg data).
  replace (Z.min (Z.max (len pre + lo) 0) (len pre + len data))
    with (len pre + Z.min (Z.max lo 0) (len data)) by lia.
  replace (Z.min (Z.max (len pre + hi) 0) (len pre + len data))
    with (len pre + Z.min (Z.max hi 0) (len data)) by lia.
  rewrite skipn_app_len by lia. f_equal. lia.
Qed.

Lemma while_lt_shift {S} d n (body body' : Z -> S -> outcome (step S)) :
  (forall offset st, 0 <= offset ->
     body' (d + offset) st =
     match body offset st with
     | Ok (Next offset' st') => Ok (Next (d + offset') st')
     | r => r
     end) ->
  (forall offset st offset' st', body offset st = Ok (Next offset' st') -> offset < offset') ->
  forall fuel offset st, 0 <= offset ->
    while_lt fuel (d + n) body' (d + offset) st = while_lt fuel n body offset st.
Proof.
  intros Hbody Hprog. induction fuel as [|fuel IH]; intros offset st Hoff; cbn [while_lt];
    destruct (Z.ltb_spec (d + offset) (d + n)), (Z.ltb_spec offset n); try lia; try reflexivity.
  rewrite Hbody by assumption. specialize (Hprog offset st).
  destruct (body offset st) as [[offset' st'|st']| |]; try reflexivity.
  apply IH. specialize (Hprog _ _ eq_refl). lia.
Qed.

(** With enough fuel for the bytes left, the fuel does not matter. *)
Lemma while_lt_enough {S} n (body : Z -> S -> outcome (step S)) :
  (forall offset st, body offset st <> OutOfFuel) ->
  (forall offset st offset' st', body offset st = Ok (Next offset' st') -> offset < offset') ->
  forall fuel fuel' offset st,
    n - offset <= Z.of_nat fuel -> n - offset <= Z.of_nat fuel' ->
    while_lt fuel n body offset st = while_lt fuel' n body offset st.
Proof.
  intros Hfuel Hprog fuel fuel' offset st H1 H2.
  destruct (Nat.le_ge_cases fuel fuel').
  - symmetry. apply while_lt_fuel_mono; [|assumption]. apply while_lt_returns; assumption.
  - apply while_lt_fuel_mono; [|assumption]. apply while_lt_returns; assumption.
Qed.

Lemma skip_field_shift pre data offset wire :
  0 <= offset ->
  skip_field (pre ++ data) (len pre + offset) wire =
  match skip_field data offset wire with
  | Ok (Some offset') => Ok (Some (len pre + offset'))
  | r => r
  end.
Proof.
  intros H. unfold skip_field.
  destruct (wire =? WIRE_VARINT); [|destruct (wire =? WIRE_64BIT);
    [|destruct (wire =? WIRE_LENGTH); [|destruct (wire =? WIRE_32BIT)]]];
    rewrite ?read_varint_shift by assumption;
    try (destruct (read_varint data offset) as [[v pos]| |]; cbn [bind]);
    try reflexivity; do 2 f_equal; lia.
Qed.

Lemma read_fixed32_shift pre data offset :
  0 <= offset ->
  read_fixed32 (pre ++ data) (len pre + offset) =
  '(raw, offset') <- read_fixed32 data offset ;; Ok (raw, len pre + offset').
Proof.
  intros H. unfold read_fixed32. rewrite len_app.
  destruct (Z.gtb_spec (offset + 4) (len data)),
    (Z.gtb_spec (len pre + offset + 4) (len pre + len data)); try lia; [reflexivity|].
  cbn [bind]. replace (len pre + offset + 4) with (len pre + (offset + 4)) by lia.
  rewrite slice_shift by lia. reflexivity.
Qed.

Lemma read_fixed64_shift pre data offset :
  0 <= offset ->
  read_fixed64 (pre ++ data) (len pre + offset) =
  '(raw, offset') <- read_fixed64 data offset ;; Ok (raw, len pre + offset').
Proof.
  intros H. unfold read_fixed64. rewrite len_app.
  destruct (Z.gtb_spec (offset + 8) (len data)),
    (Z.gtb_spec (len pre + offset + 8) (len pre + len data)); try lia; [reflexivity|].
  cbn [bind]. replace (len pre + offset + 8) with (len pre + (offset + 8)) by lia.
  rewrite slice_shift by lia. reflexivity.
Qed.

Lemma read_value_field_shift pre data offset :
  0 <= offset ->
  read_value_field (pre ++ data) (len pre + offset) =
  '(offset', field) <- read_value_field data offset ;; Ok (len pre + offset', field).
Proof.
  intros Hoff. unfold read_value_field. rewrite read_varint_shift by assumption.
  destruct (read_varint data offset) as [[tag o1]| |] eqn:Htag; cbn [bind]; try reflexivity.
  apply read_varint_bounds in Htag.
  repeat match goal with
  | |- context [if ?c then _ else _] =>
      lazymatch c with
      | andb _ _ => destruct c
      end
  end.
  all: rewrite ?read_varint_shift, ?read_fixed32_shift, ?read_fixed64_shift,
         ?skip_field_shift by lia.
  all: try (destruct (read_varint data o1) as [[v o2]| |] eqn:Hv; cbn [bind];
            try reflexivity; apply read_varint_bounds in Hv).
  all: try (destruct (read_fixed32 data o1) as [[v o2]| |]; cbn [bind]; reflexivity).
  all: try (destruct (read_fixed64 data o1) as [[v o2]| |]; cbn [bind]; reflexivity).
  all: try reflexivity.
  - rewrite len_app.
    destruct (Z.gtb_spec (o2 + v) (len data)), (Z.gtb_spec (len pre + o2 + v) (len pre + len data));
      try lia; [reflexivity|].
    replace (len pre + o2 + v) with (len pre + (o2 + v)) by lia.
    rewrite slice_shift by lia. reflexivity.
  - rewrite len_app.
    destruct (Z.gtb_spec (o2 + v) (len data)), (Z.gtb_spec (len pre + o2 + v) (len pre + len data));
      try lia; [reflexivity|].
    replace (len pre + o2 + v) with (len pre + (o2 + v)) by lia.
    rewrite slice_shift by lia.
    destruct (parse_string_set (slice data o2 (o2 + v))); reflexivity.
  - destruct (skip_field data o1 (Z.land tag 7)) as [[o2|]| |]; reflexivity.
Qed.

Lemma payload_wire_range p : 0 <= payload_wire p < 8.
Proof. destruct p; cbv; split; congruence. Qed.

Lemma tag_split field_num wire :
  0 <= field_num -> 0 <= wire < 8 ->
  Z.lor (Z.shiftl field_num 3) wire = 8 * field_num + wire /\
  Z.shiftr (Z.lor (Z.shiftl field_num 3) wire) 3 = field_num /\
  Z.land (Z.lor (Z.shiftl field_num 3) wire) 0x7 = wire.
Proof.
  intros Hf Hw.
  assert (E : Z.lor (Z.shiftl field_num 3) wire = 8 * field_num + wire).
  { rewrite Z.lor_comm, lor_shiftl_add; change (2 ^ 3) with 8; lia. }
  rewrite E. split; [reflexivity|]. split.
  - rewrite Z.shiftr_div_pow2 by lia. change (2 ^ 3) with 8. Z.div_mod_to_equations. lia.
  - change 0x7 with (Z.ones 3). rewrite Z.land_ones by lia. change (2 ^ 3) with 8.
    Z.div_mod_to_equations. lia.
Qed.

Lemma skip_field_payload pre p post :
  well_formed_payload p ->
  skip_field (pre ++ payload_bytes p ++ post) (len pre) (payload_wire p)
  = Ok (Some (len pre + len (payload_bytes p))).
Proof.
  intros Hp. unfold skip_field.
  destruct p as [x|b|q|b]; cbn [payload_wire payload_bytes well_formed_payload] in *;
    eval_tests.
  - rewrite read_varint_encode by (split; [lia|apply (pow_77_of 64); lia]). reflexivity.
  - rewrite Hp. reflexivity.
  - pose proof (len_nonneg q).
    rewrite (read_varint_at _ pre (len q) (q ++ post));
      [|frame|reflexivity|split; [lia|apply (pow_77_of 63); lia]].
    cbn [bind]. rewrite len_app. do 2 f_equal. lia.
  - rewrite Hp. reflexivity.
Qed.

(** Reading the tag of a field written by [encode_field]. *)
Lemma read_tag_encode_field pre field_num p post :
  0 <= field_num < 2 ^ 29 ->
  read_varint (pre ++ encode_field field_num p ++ post) (len pre)
  = Ok (Z.lor (Z.shiftl field_num 3) (payload_wire p),
        len pre + len (encode_varint (Z.lor (Z.shiftl field_num 3) (payload_wire p)))).
Proof.
  intros Hf. unfold encode_field.
  pose proof (payload_wire_range p) as Hw.
  destruct (tag_split field_num (payload_wire p) ltac:(lia) Hw) as (E & _ & _).
  rewrite <- app_assoc. apply read_varint_encode.
  rewrite E. split; [lia|]. apply (pow_77_of 32); [lia|].
  change (2 ^ 29) with 536870912 in Hf. change (2 ^ 32) with 4294967296. lia.
Qed.

Lemma value_step_unknown field_num p data found :
  0 <= field_num < 2 ^ 29 -> well_formed_payload p ->
  known_value_field field_num (payload_wire p) = false ->
  value_step (encode_field field_num p ++ data) 0 found
  = Ok (Next (len (encode_field field_num p)) found).
Proof.
  intros Hf Hp Hunknown. unfold value_step, read_value_field.
  pose proof (read_tag_encode_field [] field_num p data Hf) as Htag.
  cbn [app] in Htag. change (len (@nil byte)) with 0 in Htag. rewrite Htag. cbn [bind].
  destruct (tag_split field_num (payload_wire p) ltac:(lia) (payload_wire_range p))
    as (_ & -> & ->).
  unfold known_value_field in Hunknown.
  repeat (apply orb_false_elim in Hunknown; destruct Hunknown as [Hunknown ?]).
  repeat match goal with H : _ && _ = false |- _ => rewrite H; clear H end.
  unfold encode_field. rewrite <- app_assoc, Z.add_0_l.
  rewrite (skip_field_payload _ p data Hp). cbn [bind]. rewrite len_app. reflexivity.
Qed.

(** X12.  A well-formed field that is none of the seven known ones, put in
    front of any Value slice, does not change what [parse_value_message]
    returns or raises. *)
Theorem value_unknown_field_skipped field_num p data :
  0 <= field_num < 2 ^ 29 -> well_formed_payload p ->
  known_value_field field_num (payload_wire p) = false ->
  parse_value_message (encode_field field_num p ++ data) = parse_value_message data.
Proof.
  intros Hf Hp Hunknown. unfold parse_value_message. f_equal.
  set (field := encode_field field_num p).
  assert (Hpos : 1 <= len field).
  { unfold field, encode_field. rewrite len_app.
    pose proof (len_nonneg (payload_bytes p)).
    pose proof (payload_wire_range p) as Hw.
    destruct (tag_split field_num (payload_wire p) ltac:(lia) Hw) as (E & _ & _).
    pose proof (encode_varint_length (Z.lor (Z.shiftl field_num 3) (payload_wire p))
                  ltac:(lia)). lia. }
  rewrite length_app. destruct (length field) as [|n] eqn:Hn; [unfold len in Hpos; lia|].
  cbn [Nat.add].
  rewrite (while_lt_next _ _ _ _ _ (len field) ([] : found_dict));
    [|rewrite len_app; pose proof (len_nonneg data); lia
     |apply value_step_unknown; assumption].
  rewrite len_app. replace (len field) with (len field + 0) at 2 by lia.
  rewrite (while_lt_shift (len field) (len data) (value_step data)
             (value_step (field ++ data))).
  - apply while_lt_enough.
    + intros offset found. unfold value_step. not_fuel. apply read_value_field_returns.
    + intros offset found offset' found'. apply value_step_progress.
    + unfold len. lia.
    + unfold len. lia.
  - intros offset st Hoff. unfold value_step. rewrite read_value_field_shift by assumption.
    destruct (read_value_field data offset) as [[offset' [v|]]| |]; reflexivity.
  - intros offset found offset' found'. apply value_step_progress.
  - lia.
Qed.

Lemma top_step_returns raw_bytes offset res : top_step raw_bytes offset res <> OutOfFuel.
Proof. unfold top_step. not_fuel. apply decode_map_entry_returns. Qed.

Lemma top_step_shift pre raw_bytes offset res :
  0 <= offset ->
  top_step (pre ++ raw_bytes) (len pre + offset) res =
  match top_step raw_bytes offset res with
  | Ok (Next offset' res') => Ok (Next (len pre + offset') res')
  | r => r
  end.
Proof.
  intros Hoff. unfold top_step. rewrite read_varint_shift by assumption.
  destruct (read_varint raw_bytes offset) as [[tag o1]| |] eqn:Htag; cbn [bind]; try reflexivity.
  apply read_varint_bounds in Htag.
  destruct ((Z.shiftr tag 3 =? 1) && (Z.land tag 7 =? WIRE_LENGTH)).
  - rewrite read_varint_shift by lia.
    destruct (read_varint raw_bytes o1) as [[length o2]| |] eqn:Hl; cbn [bind]; try reflexivity.
    apply read_varint_bounds in Hl.
    replace (len pre + o2 + length) with (len pre + (o2 + length)) by lia.
    rewrite slice_shift by lia.
    destruct (decode_map_entry (slice raw_bytes o2 (o2 + length)) res); reflexivity.
  - rewrite skip_field_shift by lia.
    destruct (skip_field raw_bytes o1 (Z.land tag 7)) as [[o2|]| |]; reflexivity.
Qed.

Lemma parse_preferences_into_shift pre raw_bytes res fuel :
  len raw_bytes <= Z.of_nat fuel ->
  while_lt fuel (len (pre ++ raw_bytes)) (top_step (pre ++ raw_bytes)) (len pre) res
  = parse_preferences_into res raw_bytes.
Proof.
  intros Hfuel. unfold parse_preferences_into. rewrite len_app.
  replace (len pre) with (len pre + 0) at 2 by lia.
  rewrite (while_lt_shift (len pre) (len raw_bytes) (top_step raw_bytes)
             (top_step (pre ++ raw_bytes))).
  - apply while_lt_enough.
    + intros offset st. apply top_step_returns.
    + intros offset st offset' st'. apply top_step_progress.
    + lia.
    + unfold len. lia.
  - intros offset st Hoff. apply top_step_shift. exact Hoff.
  - intros offset st offset' st'. apply top_step_progress.
  - lia.
Qed.

Lemma encode_field_length field_num p :
  0 <= field_num -> 1 <= len (encode_field field_num p).
Proof.
  intros Hf. unfold encode_field. rewrite len_app.
  pose proof (len_nonneg (payload_bytes p)).
  destruct (tag_split field_num (payload_wire p) Hf (payload_wire_range p)) as (E & _ & _).
  pose proof (encode_varint_length (Z.lor (Z.shiftl field_num 3) (payload_wire p))
                ltac:(pose proof (payload_wire_range p); lia)). lia.
Qed.

Lemma top_step_unknown field_num p raw_bytes res :
  0 <= field_num < 2 ^ 29 -> well_formed_payload p ->
  known_top_field field_num (payload_wire p) = false ->
  top_step (encode_field field_num p ++ raw_bytes) 0 res
  = Ok (Next (len (encode_field field_num p)) res).
Proof.
  intros Hf Hp Hunknown. unfold top_step.
  pose proof (read_tag_encode_field [] field_num p raw_bytes Hf) as Htag.
  cbn [app] in Htag. change (len (@nil byte)) with 0 in Htag. rewrite Htag. cbn [bind].
  destruct (tag_split field_num (payload_wire p) ltac:(lia) (payload_wire_range p))
    as (_ & -> & ->).
  unfold known_top_field in Hunknown. rewrite Hunknown.
  unfold encode_field. rewrite <- app_assoc, Z.add_0_l.
  rewrite (skip_field_payload _ p raw_bytes Hp). cbn [bind]. rewrite len_app. reflexivity.
Qed.

Lemma parse_preferences_into_unknown field_num p raw_bytes res :
  0 <= field_num < 2 ^ 29 -> well_formed_payload p ->
  known_top_field field_num (payload_wire p) = false ->
  parse_preferences_into res (encode_field field_num p ++ raw_bytes)
  = parse_preferences_into res raw_bytes.
Proof.
  intros Hf Hp Hunknown. unfold parse_preferences_into at 1.
  set (field := encode_field field_num p).
  pose proof (encode_field_length field_num p ltac:(lia)) as Hpos. fold field in Hpos.
  rewrite length_app. destruct (length field) as [|n] eqn:Hn; [unfold len in Hpos; lia|].
  cbn [Nat.add].
  rewrite (while_lt_next _ _ _ _ _ (len field) res);
    [|rewrite len_app; pose proof (len_nonneg raw_bytes); lia
     |apply top_step_unknown; assumption].
  apply parse_preferences_into_shift. unfold len. lia.
Qed.

(** X13.  A well-formed top-level field other than field 1 with wire type 2,
    put in front of any buffer, does not change what [parse_preferences_pb]
    returns or raises. *)
Theorem top_unknown_field_skipped field_num p raw_bytes :
  0 <= field_num < 2 ^ 29 -> well_formed_payload p ->
  known_top_field field_num (payload_wire p) = false ->
  parse_preferences_pb (encode_field field_num p ++ raw_bytes)
  = parse_preferences_pb raw_bytes.
Proof. apply parse_preferences_into_unknown. Qed.








(** X10.  The Long decoded from field 4 is the two's-complement reading of
    the low 64 bits of the varint. *)
Theorem long_field_twos_complement v post :
  0 <= v < 2 ^ 64 ->
  read_value_field (bytes_of [0x20] ++ encode_varint v ++ post) 0 =
  Ok (1 + len (encode_varint v), Some (Long (twos_complement 64 v))).
Proof.
  intros Hv. unfold read_value_field.
  change (read_varint (bytes_of [0x20] ++ encode_varint v ++ post) 0)
    with (Ok (A := Z * Z) (0x20, 1)).
  cbn [bind]. eval_tests.
  rewrite (read_varint_at _ (bytes_of [0x20]) v post);
    [|reflexivity|reflexivity|split; [lia|apply (pow_77_of 64); lia]].
  cbn [bind]. do 4 f_equal.
  unfold twos_complement. rewrite Z.mod_small by lia.
  change (Z.shiftl 1 64) with (2 ^ 64). change (2 ^ (64 - 1)) with 9223372036854775808.
  change (2 ^ 64) with 18446744073709551616 in *.
  destruct (Z.leb_spec v 0x7fffffffffffffff), (Z.ltb_spec v 9223372036854775808); lia.
Qed.



Lemma raises_only_bind {A B} P (m : outcome A) (k : A -> outcome B) :
  raises_only P m -> (forall a, raises_only P (k a)) -> raises_only P (bind m k).
Proof.
  unfold raises_only. intros Hm Hk e. destruct m as [a| |]; cbn [bind];
    [apply Hk | intros [= <-]; apply Hm; reflexivity | discriminate].
Qed.

Lemma raises_only_while {S} P n (body : Z -> S -> outcome (step S)) :
  (forall offset st, raises_only P (body offset st)) ->
  forall fuel offset st, raises_only P (while_lt fuel n body offset st).
Proof.
  intros Hbody. induction fuel as [|fuel IH]; intros offset st e; cbn [while_lt];
    destruct (offset <? n); try discriminate.
  specialize (Hbody offset st).
  destruct (body offset st) as [[offset' st'|st']| |] eqn:Hb; try discriminate.
  - apply IH.
  - intros [= <-]. apply Hbody. reflexivity.
Qed.

Lemma read_varint_from_raises rest : forall result shift pos e,
  read_varint_from rest result shift pos = Raise e -> e = EndOfVarint \/ e = VarintTooBig.
Proof.
  induction rest as [|b rest IH]; intros result shift pos e H; cbn [read_varint_from] in H.
  - injection H as <-. left. reflexivity.
  - destruct (_ =? 0); [discriminate|].
    destruct (_ >? 70); [injection H as <-; right; reflexivity|].
    eapply IH. exact H.
Qed.

Lemma raises_only_read_varint data offset :
  raises_only decode_error (read_varint data offset).
Proof.
  intros e H. unfold read_varint in H.
  destruct (offset >=? len data); [injection H as <-; left; reflexivity|].
  apply read_varint_from_raises in H. destruct H as [-> | ->];
    [left|right; left]; reflexivity.
Qed.

Lemma raises_only_ok {A} P (a : A) : raises_only P (Ok a).
Proof. intros e H. discriminate H. Qed.

Ltac raises_only_tac :=
  repeat match goal with
  | |- raises_only _ (bind _ _) => apply raises_only_bind; [|intros ?]
  | |- raises_only _ (match ?x with (_, _) => _ end) => destruct x
  | |- raises_only _ (if ?c then _ else _) => destruct c
  | |- raises_only _ (match ?x with Some _ => _ | None => _ end) => destruct x
  | |- raises_only _ (Ok _) => apply raises_only_ok
  | |- raises_only _ (read_varint _ _) => apply raises_only_read_varint
  | |- raises_only decode_error (Raise _) =>
      let e := fresh in let H := fresh in
      intros e H; injection H as <-; unfold decode_error; cbn [kind_of]; tauto
  end.

Lemma raises_only_skip_field data offset wire :
  raises_only decode_error (skip_field data offset wire).
Proof. unfold skip_field. raises_only_tac. Qed.

Lemma raises_only_parse_value_message data :
  raises_only decode_error (parse_value_message data).
Proof.
  unfold parse_value_message. raises_only_tac.
  apply raises_only_while. intros offset found.
  unfold value_step, read_value_field, read_fixed32, read_fixed64. raises_only_tac.
  - unfold parse_string_set. apply raises_only_while. intros suboff arr.
    unfold string_set_step. raises_only_tac; apply raises_only_skip_field.
  - apply raises_only_skip_field.
Qed.

Lemma raises_only_decode_map_entry entry res :
  raises_only decode_error (decode_map_entry entry res).
Proof.
  unfold decode_map_entry. apply raises_only_bind.
  - unfold parse_map_entry. apply raises_only_while. intros eoff st.
    unfold entry_step, read_entry_field. raises_only_tac. apply raises_only_skip_field.
  - intros [[key|] [val_bytes|]]; cbn [store_entry]; raises_only_tac.
    apply raises_only_parse_value_message.
Qed.

(** X17.  [parse_preferences_pb] returns a map or raises an error of the
    kinds TruncatedData, VarintOverflow or UnsupportedWireType: its loops
    end on every input and nothing else is raised. *)
Theorem decode_returns_or_raises_decode_error raw_bytes :
  (exists res, parse_preferences_pb raw_bytes = Ok res) \/
  (exists e, parse_preferences_pb raw_bytes = Raise e /\ decode_error e).
Proof.
  destruct (parse_preferences_pb raw_bytes) as [res|e|] eqn:H.
  - left. eauto.
  - right. exists e. split; [reflexivity|]. revert e H.
    change (raises_only decode_error (parse_preferences_pb raw_bytes)).
    unfold parse_preferences_pb. apply raises_only_while. intros offset res.
    unfold top_step. raises_only_tac.
    + apply raises_only_decode_map_entry.
    + apply raises_only_skip_field.
  - exfalso. eapply parse_preferences_pb_returns. exact H.
Qed.

(** ** [sanitize_filename] and [_parse_dnd_data] *)

Lemma lstrip_idempotent s : lstrip (lstrip s) = lstrip s.
Proof.
  induction s as [|c s IH]; [reflexivity|]. cbn [lstrip].
  destruct (py_isspace c) eqn:E; [exact IH|]. cbn [lstrip]. rewrite E. reflexivity.
Qed.

Lemma lstrip_app a b :
  lstrip (a ++ b) = match lstrip a with [] => lstrip b | r => r ++ b end.
Proof.
  induction a as [|c a IH]; cbn [app lstrip]; [destruct (lstrip b); reflexivity|].
  destruct (py_isspace c); [exact IH|reflexivity].
Qed.

Lemma lstrip_length s : (length (lstrip s) <= length s)%nat.
Proof.
  induction s as [|x s IH]; cbn [lstrip length]; [lia|].
  destruct (py_isspace x); cbn [length]; lia.
Qed.

Lemma rstrip_cons c s :
  rstrip (c :: s) =
  match rstrip s with
  | [] => if py_isspace c then [] else [c]
  | r => c :: r
  end.
Proof.
  unfold rstrip. cbn [rev]. rewrite lstrip_app.
  destruct (lstrip (rev s)) as [|d r] eqn:E.
  - cbn [rev lstrip]. destruct (py_isspace c); reflexivity.
  - rewrite rev_app_distr. change (rev [c]) with [c].
    destruct (rev (d :: r)) as [|x y] eqn:E2; [|reflexivity].
    apply (f_equal (@length Z)) in E2. rewrite length_rev in E2. discriminate E2.
Qed.

Lemma rstrip_idempotent s : rstrip (rstrip s) = rstrip s.
Proof. unfold rstrip. rewrite rev_involutive, lstrip_idempotent. reflexivity. Qed.

Lemma lstrip_rstrip s : lstrip s = s -> lstrip (rstrip s) = rstrip s.
Proof.
  destruct s as [|c s]; [reflexivity|]. cbn [lstrip].
  destruct (py_isspace c) eqn:E.
  - intros H. apply (f_equal (@length Z)) in H. pose proof (lstrip_length s).
    cbn [length] in H. lia.
  - intros _. rewrite rstrip_cons.
    destruct (rstrip s); rewrite ?E; cbn [lstrip]; rewrite E; reflexivity.
Qed.

Lemma strip_idempotent s : strip (strip s) = strip s.
Proof.
  unfold strip. rewrite (lstrip_rstrip (lstrip s)) by apply lstrip_idempotent.
  apply rstrip_idempotent.
Qed.

Lemma Forall_lstrip (P : Z -> Prop) s : Forall P s -> Forall P (lstrip s).
Proof.
  induction 1 as [|c s Hc Hs IH]; cbn [lstrip]; [constructor|].
  destruct (py_isspace c); [exact IH|]. constructor; assumption.
Qed.

Lemma Forall_strip (P : Z -> Prop) s : Forall P s -> Forall P (strip s).
Proof.
  intros H. unfold strip, rstrip.
  apply Forall_rev, Forall_lstrip, Forall_rev, Forall_lstrip. exact H.
Qed.

Lemma filter_allowed_id s :
  Forall (fun c => allowed_char c = true) s -> filter allowed_char s = s.
Proof.
  induction 1 as [|c s Hc Hs IH]; cbn [filter]; [reflexivity|].
  rewrite Hc, IH. reflexivity.
Qed.

Lemma sanitize_filename_spec name :
  sanitize_filename name <> [] /\
  Forall (fun c => allowed_char c = true) (sanitize_filename name) /\
  strip (sanitize_filename name) = sanitize_filename name.
Proof.
  unfold sanitize_filename.
  assert (Hall : Forall (fun c => allowed_char c = true) (strip (filter allowed_char name))).
  { apply Forall_strip. apply Forall_forall. intros c Hc.
    apply filter_In in Hc. tauto. }
  pose proof (strip_idempotent (filter allowed_char name)) as Hidem.
  destruct (strip (filter allowed_char name)) as [|c kept].
  - split; [discriminate|]. split; [|reflexivity].
    unfold Literal.backup. vm_compute. repeat constructor.
  - split; [discriminate|]. split; assumption.
Qed.

(** X26.  The name [sanitize_filename] returns is not empty, has only allowed
    characters and no space at either end. *)
Theorem sanitize_filename_safe name :
  sanitize_filename name <> [] /\
  Forall (fun c => In c Literal.allowed) (sanitize_filename name) /\
  strip (sanitize_filename name) = sanitize_filename name.
Proof.
  destruct (sanitize_filename_spec name) as (H1 & H2 & H3).
  split; [exact H1|]. split; [|exact H3].
  eapply Forall_impl; [|exact H2]. intros c Hc. unfold allowed_char in Hc.
  apply existsb_exists in Hc. destruct Hc as (x & Hx & Heq).
  apply Z.eqb_eq in Heq. subst. exact Hx.
Qed.

(** X27.  [sanitize_filename] leaves a name it has returned as it is. *)
Theorem sanitize_filename_idempotent name :
  sanitize_filename (sanitize_filename name) = sanitize_filename name.
Proof.
  destruct (sanitize_filename_spec name) as (H1 & H2 & H3).
  unfold sanitize_filename at 1.
  rewrite (filter_allowed_id _ H2), H3.
  destruct (sanitize_filename name); [congruence|reflexivity].
Qed.

Lemma parse_dnd_in_brace p : forall rest out cur,
  no_brace p ->
  parse_dnd_loop (p ++ rest) out cur true = parse_dnd_loop rest out (cur ++ p) true.
Proof.
  induction p as [|c p IH]; intros rest out cur [Ho Hc].
  - rewrite app_nil_r. reflexivity.
  - cbn [app parse_dnd_loop].
    destruct (Z.eqb_spec c Literal.open_brace) as [->|_]; [exfalso; apply Ho; left; reflexivity|].
    destruct (Z.eqb_spec c Literal.close_brace) as [->|_]; [exfalso; apply Hc; left; reflexivity|].
    rewrite andb_false_r. rewrite IH.
    + rewrite <- app_assoc. reflexivity.
    + split; intros H; [apply Ho|apply Hc]; right; exact H.
Qed.

Lemma parse_dnd_bare p : forall rest out cur,
  no_brace p -> ~ In Literal.space p ->
  parse_dnd_loop (p ++ rest) out cur false = parse_dnd_loop rest out (cur ++ p) false.
Proof.
  induction p as [|c p IH]; intros rest out cur [Ho Hc] Hs.
  - rewrite app_nil_r. reflexivity.
  - cbn [app parse_dnd_loop].
    destruct (Z.eqb_spec c Literal.open_brace) as [->|_]; [exfalso; apply Ho; left; reflexivity|].
    destruct (Z.eqb_spec c Literal.close_brace) as [->|_]; [exfalso; apply Hc; left; reflexivity|].
    destruct (Z.eqb_spec c Literal.space) as [->|_]; [exfalso; apply Hs; left; reflexivity|].
    cbn [andb]. rewrite IH.
    + rewrite <- app_assoc. reflexivity.
    + split; intros H; [apply Ho|apply Hc]; right; exact H.
    + intros H. apply Hs. right. exact H.
Qed.

Lemma parse_dnd_braced paths : forall out,
  Forall no_brace paths ->
  parse_dnd_loop (braced_paths paths) out [] false = out ++ paths.
Proof.
  induction paths as [|p paths IH]; intros out H.
  - rewrite app_nil_r. reflexivity.
  - inversion H as [|? ? Hp Hrest]; subst.
    destruct paths as [|q paths].
    + cbn [braced_paths parse_dnd_loop]. cbn [Z.eqb Literal.open_brace Pos.eqb].
      rewrite parse_dnd_in_brace by assumption. reflexivity.
    + change (braced_paths (p :: q :: paths))
        with (Literal.open_brace :: p ++ [Literal.close_brace; Literal.space]
              ++ braced_paths (q :: paths)).
      cbn [parse_dnd_loop]. cbn [Z.eqb Literal.open_brace Pos.eqb].
      rewrite parse_dnd_in_brace by assumption.
      cbn [app parse_dnd_loop]. cbn [Z.eqb Literal.close_brace Literal.open_brace
        Literal.space Pos.eqb andb negb].
      rewrite IH by assumption. rewrite <- app_assoc. reflexivity.
Qed.

(** X28.  Paths without braces, each written in braces with one space
    between two of them, are recovered by [_parse_dnd_data], spaces inside
    a path included. *)
Theorem parse_dnd_data_braced paths :
  Forall no_brace paths -> _parse_dnd_data (braced_paths paths) = paths.
Proof. intros H. unfold _parse_dnd_data. rewrite parse_dnd_braced by assumption. reflexivity. Qed.

Lemma parse_dnd_bare_paths paths : forall out,
  Forall bare_path paths ->
  parse_dnd_loop (bare_paths paths) out [] false = out ++ paths.
Proof.
  induction paths as [|p paths IH]; intros out H.
  - rewrite app_nil_r. reflexivity.
  - inversion H as [|? ? (Hne & Hb & Hs) Hrest]; subst.
    destruct paths as [|q paths].
    + cbn [bare_paths]. rewrite <- (app_nil_r p) at 1.
      rewrite parse_dnd_bare by assumption. cbn [app parse_dnd_loop].
      destruct p; [congruence|reflexivity].
    + change (bare_paths (p :: q :: paths))
        with (p ++ [Literal.space] ++ bare_paths (q :: paths)).
      rewrite parse_dnd_bare by assumption.
      cbn [app parse_dnd_loop]. cbn [Z.eqb Literal.close_brace Literal.open_brace
        Literal.space Pos.eqb andb negb].
      destruct p as [|c p]; [congruence|].
      rewrite IH by assumption. rewrite <- app_assoc. reflexivity.
Qed.

(** X29.  Non-empty paths without braces and spaces, written with one space
    between two of them, are recovered by [_parse_dnd_data]. *)
Theorem parse_dnd_data_bare paths :
  Forall bare_path paths -> _parse_dnd_data (bare_paths paths) = paths.
Proof. intros H. unfold _parse_dnd_data. rewrite parse_dnd_bare_paths by assumption. reflexivity. Qed.

(** ** The list of keys, the files and [add_key] *)

Lemma starts_with_separator_cons c k rest :
  starts_with Literal.list_separator ((c :: k) ++ Literal.list_separator ++ rest)
  = starts_with Literal.list_separator (c :: k).
Proof.
  change Literal.list_separator with [32; 32; 91].
  destruct k as [|x [|y k]]; cbn [app starts_with].
  - destruct (32 =? c); reflexivity.
  - destruct (32 =? c), (32 =? x); reflexivity.
  - reflexivity.
Qed.

Lemma starts_with_separator_self rest :
  starts_with Literal.list_separator (Literal.list_separator ++ rest) = true.
Proof. reflexivity. Qed.

Lemma split_head_line k rest :
  split_head Literal.list_separator (k ++ Literal.list_separator ++ rest)
  = split_head Literal.list_separator k.
Proof.
  induction k as [|c k IH].
  - reflexivity.
  - pose proof (starts_with_separator_cons c k rest) as H.
    cbn [app] in *. cbn [split_head]. rewrite H.
    destruct (starts_with Literal.list_separator (c :: k)); [reflexivity|].
    f_equal. exact IH.
Qed.

Lemma split_head_length sep s : (length (split_head sep s) <= length s)%nat.
Proof.
  induction s as [|c s IH]; cbn [split_head length]; [lia|].
  destruct (starts_with sep (c :: s)); cbn [length]; lia.
Qed.

Lemma split_head_contains sep s :
  sep <> [] ->
  (split_head sep s = s <-> contains sep s = false).
Proof.
  intros Hsep. induction s as [|c s IH]; cbn [split_head contains].
  - destruct sep; [congruence|]. cbn [starts_with]. tauto.
  - destruct (starts_with sep (c :: s)) eqn:E; cbn [orb].
    + split; discriminate.
    + rewrite <- IH. split; [intros [= H]; exact H|intros ->; reflexivity].
Qed.

Lemma selected_key_line k typ_text val_repr :
  selected_key (listbox_line k typ_text val_repr) = k
  <-> contains Literal.list_separator k = false.
Proof.
  unfold selected_key, listbox_line. rewrite split_head_line.
  apply split_head_contains. discriminate.
Qed.

(** X19.  The key read back from a line of the list is the key of the line
    exactly when the key does not contain two spaces and an opening bracket. *)
Theorem selected_key_iff k typ_text val_repr :
  selected_key (listbox_line k typ_text val_repr) = k
  <-> contains Literal.list_separator k = false.
Proof. apply selected_key_line. Qed.

Lemma str_eqb_refl s : str_eqb s s = true.
Proof. apply str_eqb_eq. reflexivity. Qed.

Lemma str_eqb_neq s t : s <> t -> str_eqb s t = false.
Proof.
  intros H. destruct (str_eqb s t) eqn:E; [|reflexivity].
  apply str_eqb_eq in E. contradiction.
Qed.

Lemma dict_get_set_same {V} k (v : V) d : dict_get k (dict_set k v d) = Some v.
Proof.
  induction d as [|[k' w] d IH]; cbn [dict_set dict_get].
  - rewrite str_eqb_refl. reflexivity.
  - destruct (str_eqb k' k) eqn:E; cbn [dict_get]; rewrite E; [reflexivity|exact IH].
Qed.

Lemma dict_get_set_other {V} k k' (v : V) d :
  k <> k' -> dict_get k' (dict_set k v d) = dict_get k' d.
Proof.
  intros Hne. induction d as [|[k0 w] d IH]; cbn [dict_set dict_get].
  - rewrite str_eqb_neq by assumption. reflexivity.
  - destruct (str_eqb k0 k) eqn:E; cbn [dict_get].
    + apply str_eqb_eq in E. subst k0. rewrite str_eqb_neq by assumption. reflexivity.
    + destruct (str_eqb k0 k'); [reflexivity|exact IH].
Qed.

Lemma dict_get_none {V} k (d : dict V) : ~ In k (map fst d) -> dict_get k d = None.
Proof.
  induction d as [|[k' w] d IH]; cbn [map fst In dict_get]; intros H; [reflexivity|].
  rewrite str_eqb_neq by tauto. apply IH. tauto.
Qed.

Lemma dict_get_pop_same {V} k (d : dict V) :
  NoDup (map fst d) -> dict_get k (dict_pop k d) = None.
Proof.
  induction d as [|[k' w] d IH]; cbn [map fst dict_pop]; intros H; [reflexivity|].
  inversion H as [|? ? Hnotin Hnodup]; subst.
  destruct (str_eqb k' k) eqn:E.
  - apply str_eqb_eq in E. subst k'. apply dict_get_none. exact Hnotin.
  - cbn [dict_get]. rewrite E. apply IH. exact Hnodup.
Qed.

Lemma dict_get_pop_other {V} k k' (d : dict V) :
  k <> k' -> dict_get k' (dict_pop k d) = dict_get k' d.
Proof.
  intros Hne. induction d as [|[k0 w] d IH]; cbn [dict_pop dict_get]; [reflexivity|].
  destruct (str_eqb k0 k) eqn:E; cbn [dict_get].
  - apply str_eqb_eq in E. subst k0. rewrite str_eqb_neq by assumption. reflexivity.
  - destruct (str_eqb k0 k'); [reflexivity|exact IH].
Qed.

(** X20.  [remove_key] on the line of a key removes this key and no other,
    unless the key contains two spaces and an opening bracket: then the key
    stays in the map. *)
Theorem remove_key_effect k typ_text val_repr pref_dict :
  NoDup (map fst pref_dict) ->
  (contains Literal.list_separator k = false ->
   dict_get k (remove_key (listbox_line k typ_text val_repr) pref_dict) = None /\
   forall k', k' <> k ->
     dict_get k' (remove_key (listbox_line k typ_text val_repr) pref_dict)
     = dict_get k' pref_dict) /\
  (contains Literal.list_separator k = true ->
   dict_get k (remove_key (listbox_line k typ_text val_repr) pref_dict)
   = dict_get k pref_dict).
Proof.
  intros Hnodup. unfold remove_key.
  pose proof (selected_key_line k typ_text val_repr) as Hiff. split.
  - intros Hc. apply Hiff in Hc. rewrite Hc. split.
    + apply dict_get_pop_same. exact Hnodup.
    + intros k' Hne. apply dict_get_pop_other. congruence.
  - intros Hc. apply dict_get_pop_other. intros Heq. apply Hiff in Heq. congruence.
Qed.

Lemma bak_differs filename : filename <> filename ++ Literal.bak.
Proof.
  intros H. apply (f_equal (@length Z)) in H. rewrite length_app in H.
  change (length Literal.bak) with 4%nat in H. lia.
Qed.

(** X21.  After two saves the backup holds what it held before the first
    one, or, when there was no backup, the bytes of the file before the
    first save. *)
Theorem save_file_backup_once filename old d1 d2 fs :
  filename <> [] -> dict_get filename fs = Some old ->
  dict_get (filename ++ Literal.bak)
    (save_file (Some filename) d2 (save_file (Some filename) d1 fs))
  = match dict_get (filename ++ Literal.bak) fs with
    | Some first => Some first
    | None => Some old
    end.
Proof.
  intros Hne Hfile. pose proof (bak_differs filename) as Hbak.
  assert (Hfirst : dict_get (filename ++ Literal.bak) (save_file (Some filename) d1 fs)
                   = match dict_get (filename ++ Literal.bak) fs with
                     | Some first => Some first
                     | None => Some old
                     end).
  { unfold save_file. destruct filename as [|c filename]; [congruence|].
    destruct (dict_get ((c :: filename) ++ Literal.bak) fs) as [b|] eqn:Eb.
    - destruct (encode_preferences_dict d1);
        rewrite ?dict_get_set_other by exact Hbak; exact Eb.
    - rewrite Hfile.
      destruct (encode_preferences_dict d1);
        rewrite ?dict_get_set_other by exact Hbak; apply dict_get_set_same. }
  unfold save_file at 1. destruct filename as [|c filename]; [congruence|].
  destruct (dict_get ((c :: filename) ++ Literal.bak) (save_file (Some (c :: filename)) d1 fs))
    as [b|] eqn:Eb.
  - destruct (encode_preferences_dict d2);
      rewrite ?dict_get_set_other by exact Hbak; rewrite Eb; exact Hfirst.
  - rewrite Hfirst in Eb. destruct (dict_get ((c :: filename) ++ Literal.bak) fs); discriminate.
Qed.

(** X22.  When the map cannot be encoded, [save_file] leaves the bytes of the
    file as they were. *)
Theorem save_file_failed_encode filename pref_dict fs e :
  encode_preferences_dict pref_dict = Raise e ->
  dict_get filename (save_file (Some filename) pref_dict fs) = dict_get filename fs.
Proof.
  intros Henc. pose proof (bak_differs filename) as Hbak. unfold save_file.
  destruct filename as [|c filename]; [reflexivity|]. rewrite Henc.
  destruct (dict_get ((c :: filename) ++ Literal.bak) fs); [reflexivity|].
  destruct (dict_get (c :: filename) fs) eqn:E; [|exact E].
  rewrite dict_get_set_other by (intros H; apply Hbak; symmetry; exact H). exact E.
Qed.


Lemma add_key_cases filename k t pref_dict :
  add_key filename k t pref_dict = pref_dict \/
  exists key tn, k = Some key /\ dict_get key pref_dict = None /\
    add_key filename k t pref_dict = dict_set key (default_value tn) pref_dict.
Proof.
  unfold add_key. destruct filename as [fn|]; [|left; destruct k; reflexivity].
  destruct k as [[|c key]|]; try (left; reflexivity).
  destruct (dict_get (c :: key) pref_dict) eqn:E; [left; reflexivity|].
  destruct t as [[|d t]|]; try (left; reflexivity).
  destruct (type_of_text type_names (strip (d :: t))) as [tn|]; [|left; reflexivity].
  right. exists (c :: key), tn. auto.
Qed.

(** X24.  [add_key] never changes or removes the value of a key that is in
    the map. *)
Theorem add_key_keeps_entries filename k t pref_dict k' v :
  dict_get k' pref_dict = Some v ->
  dict_get k' (add_key filename k t pref_dict) = Some v.
Proof.
  intros Hget. destruct (add_key_cases filename k t pref_dict)
    as [-> | (key & tn & _ & Hnone & ->)]; [exact Hget|].
  rewrite dict_get_set_other; [exact Hget|]. intros ->. congruence.
Qed.

Lemma dict_get_in {V} k (d : dict V) : dict_get k d = None -> ~ In k (map fst d).
Proof.
  induction d as [|[k' w] d IH]; cbn [map fst In dict_get]; [tauto|].
  destruct (str_eqb k' k) eqn:E; [discriminate|].
  intros H [Heq|Hin]; [subst; rewrite str_eqb_refl in E; discriminate|].
  exact (IH H Hin).
Qed.

(** X25.  [add_key] keeps a valid map valid: the keys stay distinct and the
    value it adds can be encoded and decoded. *)
Theorem add_key_keeps_valid filename k t pref_dict :
  valid_map pref_dict -> (forall key, k = Some key -> encodable key) ->
  valid_map (add_key filename k t pref_dict).
Proof.
  intros [Hnodup Hentries] Hkey.
  destruct (add_key_cases filename k t pref_dict)
    as [-> | (key & tn & Hk & Hnone & ->)]; [split; assumption|].
  apply dict_get_in in Hnone. rewrite dict_set_new by exact Hnone. split.
  - rewrite map_app. cbn [map fst].
    apply NoDup_Add with (a := key) (l := map fst pref_dict); [|constructor; assumption].
    rewrite <- (app_nil_r (map fst pref_dict)) at 1. apply Add_app.
  - apply Forall_app. split; [exact Hentries|]. constructor; [|constructor].
    split; [apply Hkey; exact Hk|]. destruct tn; cbn; try lia; try constructor.
Qed.

(** ** MapEntry slices with several keys, and instances *)

Lemma assign_fields_last_value pre val_bytes post st :
  existsb is_value post = false ->
  snd (assign_fields (pre ++ EValue val_bytes :: post) st) = Some val_bytes.
Proof.
  intros H. unfold assign_fields. rewrite fold_left_app. cbn [fold_left].
  fold (assign_fields post). rewrite (assign_fields_no_value post _ H). reflexivity.
Qed.

(** X18.  A MapEntry slice with several keys or value slices is stored under
    its last key, with what its last value slice decodes to; an earlier value
    slice is never decoded. *)
Theorem entry_last_key_last_value entry fs res pre key post pre' val_bytes post' :
  entry_fields entry = Ok fs ->
  fs = pre ++ EKey key :: post -> existsb is_key post = false ->
  fs = pre' ++ EValue val_bytes :: post' -> existsb is_value post' = false ->
  decode_map_entry entry res
  = (v <- parse_value_message val_bytes ;; Ok (dict_set key v res)).
Proof.
  intros Hfs Hk Hpost Hv Hpost'. unfold decode_map_entry.
  rewrite (parse_map_entry_fields _ _ Hfs). cbn [bind].
  pose proof (assign_fields_last_key pre key post (None, None) Hpost) as H1.
  pose proof (assign_fields_last_value pre' val_bytes post' (None, None) Hpost') as H2.
  rewrite <- Hk in H1. rewrite <- Hv in H2.
  destruct (assign_fields fs (None, None)) as [k v]. cbn in H1, H2. subst k v. reflexivity.
Qed.

Lemma entry_last_key_last_value_witness :
  decode_map_entry two_keys_two_values [] = Ok [(key_k, Integer 5)].
Proof.
  rewrite (entry_last_key_last_value two_keys_two_values
             [EKey [0x61]; EValue (bytes_of [0x08; 0x01]); EKey key_k;
              EValue (bytes_of [0x18; 0x05])] []
             [EKey [0x61]; EValue (bytes_of [0x08; 0x01])] key_k
             [EValue (bytes_of [0x18; 0x05])]
             [EKey [0x61]; EValue (bytes_of [0x08; 0x01]); EKey key_k]
             (bytes_of [0x18; 0x05]) []).
  - vm_compute. reflexivity.
  - vm_compute. reflexivity.
  - reflexivity.
  - reflexivity.
  - reflexivity.
  - reflexivity.
Defined.

Ltac solve_valid :=
  repeat first
    [ exact I
    | apply Forall_nil
    | apply Forall_cons
    | lia
    | progress (cbn [fst snd valid_value])
    | match goal with
      | |- valid_entry _ => split
      | |- encodable _ => unfold encodable
      | |- scalar_value _ => split
      | |- valid_value _ => hnf
      | |- _ /\ _ => split
      end ].

Lemma read_fixed_range_witness :
  (4 = 0 + 4 /\ 4 <= len eight_bytes /\ 0 <= 67305985 < 2 ^ 32) /\
  (8 = 0 + 8 /\ 8 <= len eight_bytes /\ 0 <= 578437695752307201 < 2 ^ 64).
Proof.
  split.
  - apply (proj1 (read_fixed_range eight_bytes 0 67305985 4 ltac:(lia))).
    vm_compute. reflexivity.
  - apply (proj2 (read_fixed_range eight_bytes 0 578437695752307201 8 ltac:(lia))).
    vm_compute. reflexivity.
Defined.

Lemma encode_varint_wraps_negative_witness :
  encode_varint (-1) = encode_varint ((-1) mod 2 ^ 64).
Proof. apply (encode_varint_wraps_negative (-1)). lia. Defined.

Lemma encode_varint_length_iff_witness :
  len (encode_varint 300) <= 2 <-> 300 < 2 ^ (7 * 2).
Proof. apply (encode_varint_length_iff 300 2); lia. Defined.

Lemma read_varint_framed_witness :
  read_varint (bytes_of [0xff] ++ bytes_of [0xac; 0x02] ++ bytes_of [0x80])
    (len (bytes_of [0xff]) + 0)
  = Ok (300, len (bytes_of [0xff]) + 2).
Proof.
  apply (read_varint_framed (bytes_of [0xff]) (bytes_of [0xac; 0x02]) (bytes_of [0x80]) 0 300 2).
  - lia.
  - vm_compute. reflexivity.
Defined.

Lemma read_varint_truncated_witness :
  fails_with (read_varint (bytes_of [0x80; 0x80]) 0) TruncatedData.
Proof.
  apply (read_varint_truncated (bytes_of [0x80; 0x80]) 0).
  - lia.
  - vm_compute. discriminate.
  - vm_compute. repeat constructor; discriminate.
Defined.

Lemma integer_field_below_2_32_witness :
  read_value_field (bytes_of [0x18] ++ encode_varint 0x80000000 ++ []) 0 =
  Ok (1 + len (encode_varint 0x80000000), Some (Integer (twos_complement 32 0x80000000))).
Proof. apply (integer_field_below_2_32 0x80000000 []). vm_compute. split; [discriminate|reflexivity]. Defined.

Lemma long_field_twos_complement_witness :
  read_value_field (bytes_of [0x20] ++ encode_varint (2 ^ 64 - 1) ++ []) 0 =
  Ok (1 + len (encode_varint (2 ^ 64 - 1)), Some (Long (twos_complement 64 (2 ^ 64 - 1)))).
Proof.
  apply (long_field_twos_complement (2 ^ 64 - 1) []).
  vm_compute. split; [discriminate|reflexivity].
Defined.


Lemma value_unknown_field_skipped_witness :
  parse_value_message (encode_field 9 (VarintPayload 5) ++ three_fields)
  = parse_value_message three_fields.
Proof.
  apply (value_unknown_field_skipped 9 (VarintPayload 5) three_fields).
  - vm_compute. split; [discriminate|reflexivity].
  - vm_compute. split; [discriminate|reflexivity].
  - reflexivity.
Defined.

Lemma top_unknown_field_skipped_witness :
  parse_preferences_pb (encode_field 2 (LengthPayload (bytes_of [1; 2; 3])) ++ short_value)
  = parse_preferences_pb short_value.
Proof.
  apply (top_unknown_field_skipped 2 (LengthPayload (bytes_of [1; 2; 3])) short_value).
  - vm_compute. split; [discriminate|reflexivity].
  - vm_compute. reflexivity.
  - reflexivity.
Defined.

Lemma valid_map_one : valid_map map_one.
Proof.
  split.
  - repeat constructor. intros [].
  - solve_valid.
Defined.




Lemma parse_dnd_data_braced_witness :
  _parse_dnd_data (braced_paths two_paths) = two_paths.
Proof.
  apply (parse_dnd_data_braced two_paths).
  repeat constructor; cbn; intuition discriminate.
Defined.

Lemma parse_dnd_data_bare_witness :
  _parse_dnd_data (bare_paths two_bare_paths) = two_bare_paths.
Proof.
  apply (parse_dnd_data_bare two_bare_paths).
  repeat constructor; cbn; intuition discriminate.
Defined.

Lemma remove_key_effect_witness :
  dict_get key_k (remove_key (listbox_line key_k [] []) map_with_separator) = None /\
  dict_get key_with_separator
    (remove_key (listbox_line key_with_separator [] []) map_with_separator)
  = dict_get key_with_separator map_with_separator.
Proof.
  assert (Hnodup : NoDup (map fst map_with_separator))
    by (repeat constructor; cbn; intuition discriminate).
  split.
  - apply (proj1 (remove_key_effect key_k [] [] map_with_separator Hnodup)). reflexivity.
  - apply (proj2 (remove_key_effect key_with_separator [] [] map_with_separator Hnodup)).
    reflexivity.
Defined.

Lemma save_file_backup_once_witness :
  dict_get (key_k ++ Literal.bak)
    (save_file (Some key_k) map_two (save_file (Some key_k) map_one one_file))
  = Some (bytes_of [1; 2]).
Proof.
  apply (save_file_backup_once key_k (bytes_of [1; 2]) map_one map_two one_file).
  - discriminate.
  - reflexivity.
Defined.

Lemma save_file_failed_encode_witness :
  dict_get key_k (save_file (Some key_k) map_surrogate one_file) = dict_get key_k one_file.
Proof.
  apply (save_file_failed_encode key_k map_surrogate one_file UnicodeEncodeError).
  vm_compute. reflexivity.
Defined.


Lemma add_key_keeps_entries_witness :
  dict_get key_k (add_key (Some key_k) (Some [0x61]) (Some EditorText.name_long) map_one)
  = Some (Integer 5).
Proof.
  apply (add_key_keeps_entries (Some key_k) (Some [0x61]) (Some EditorText.name_long)
           map_one key_k (Integer 5)).
  reflexivity.
Defined.

Lemma add_key_keeps_valid_witness :
  valid_map (add_key (Some key_k) (Some [0x61]) (Some EditorText.name_long) map_one).
Proof.
  apply (add_key_keeps_valid (Some key_k) (Some [0x61]) (Some EditorText.name_long) map_one).
  - exact valid_map_one.
  - intros key [= <-]. solve_valid.
Defined.

Example add_key_long :
  add_key (Some key_k) (Some [0x61]) (Some (0x20 :: EditorText.name_long ++ [0x0a])) map_one
  = [(key_k, Integer 5); ([0x61], Long 0)].
Proof. vm_compute. reflexivity. Qed.
